(** * algebrain: the two-phase (reader/writer) recurrent block

    A shallow embedding of [sample.go]: the [Sample] encoders, the one-hot
    codec, the [Block] that routes each sequence of a batch to a reader or
    a writer cell, its gradient routing, and the [Query] driver.

    Conventions.
    - Go's [int] and [rune] values are integers in [Z]; slice indices are
      converted to [nat] where a slice is read.
    - [linalg.Vector] ([[]float64]) is a list of binary64 floats.
    - A Go panic is the [Panic] outcome of [result]; a slice read out of
      range is [Panic IndexOutOfRange].
    - The cells of package [rnn] are interface values: records of
      functions over the state types of the enclosing section.
    - Every call of a cell's [ApplyBlock] is recorded in a call log that is
      kept even when a later statement panics. *)

From Stdlib Require Import ZArith PrimFloat Lia.
From stdpp Require Import base option list.
From Equations.Prop Require Import Equations Logic.

Local Open Scope Z_scope.

(** ** Outcomes: values and panics *)

Definition rune := Z.

Inductive panic : Type :=
| RuneOutOfRange (x : rune)   (* panic("rune out of range: " + string(x)) *)
| IndexOutOfRange             (* the runtime's slice index panic *)
| InvalidArgument             (* a partitioner call on lists of wrong length *)
| CellPanic.                  (* a panic raised inside a cell of package rnn *)

Inductive result (A : Type) : Type :=
| Ok (a : A)
| Panic (e : panic).
Arguments Ok {A} a.
Arguments Panic {A} e.

#[global] Instance result_ret : MRet result := fun _ a => Ok a.
#[global] Instance result_bind : MBind result := fun _ _ k m =>
  match m with
  | Ok a => k a
  | Panic e => Panic e
  end.

(** [l[i]] on a slice. *)
Definition index {A} (l : list A) (i : nat) : result A :=
  match l !! i with
  | Some a => Ok a
  | None => Panic IndexOutOfRange
  end.

(** ** Constants *)

Definition CharCount : Z := 128.
Definition Terminator : Z := 0.
Definition maxResponseLen : Z := 1000.

(** ** Symbol codec *)

(** A vector of floats. [oneHotVector] fills a [[]float32]; its entries 0
    and 1 are the same numbers in the [float64] vectors of the block. *)
Abbreviation Vector := (list float) (only parsing).

Definition oneHotVector (x : rune) : result Vector :=
  let ix := x in
  if (ix >=? CharCount) || (ix <? 0) then Panic (RuneOutOfRange x)
  else
    let data := replicate (Z.to_nat CharCount) 0%float in
    Ok (<[Z.to_nat ix := 1%float]> data).

(** The runes the encoder accepts. *)
Definition inRange (x : rune) : Prop := 0 ≤ x < CharCount.

(** ** Samples

    A Go string is ranged over rune by rune; [Query] and [Response] hold the
    runes that [range] yields. *)

Record Sample := {
  Query : list rune;
  Response : list rune;
}.

(** [for i, x := range str { res[i] = oneHotVector(x) }]: the encodings in
    order, panicking at the first rune the encoder rejects. ([i] is the
    byte offset of the rune and [res] has one slot per byte; when no rune
    is rejected every rune is one byte long, so the slots are the runes.) *)
Fixpoint encodeRunes (str : list rune) : result (list Vector) :=
  match str with
  | [] => Ok []
  | x :: rest =>
      v ← oneHotVector x;
      vs ← encodeRunes rest;
      Ok (v :: vs)
  end.

Definition Sample_InputSequence (s : Sample) : result (list Vector) :=
  encodeRunes (Query s).

Definition Sample_DecoderOutSequence (s : Sample) : result (list Vector) :=
  res ← encodeRunes (Response s);
  t ← oneHotVector Terminator;
  Ok (res ++ [t]).

Definition Sample_DecoderInSequence (s : Sample) : result (list Vector) :=
  t ← oneHotVector 0;
  res ← encodeRunes (Response s);
  Ok (t :: res).

(** ** The batch partitioner *)

(** Modelled from the spec: [splitReadWrite] is called by [ApplyBlock] and
    [PropagateGradient] but its body is not among the sources. It splits
    [items] by the flags into the reading and the writing items, each in
    their relative order; flags and items of different lengths are an
    invalid argument. The Go function appends to two result slices passed
    by pointer; here they are returned. *)
Fixpoint splitReadWrite {T} (reading : list bool) (items : list T)
  : result (list T * list T) :=
  match reading, items with
  | [], [] => Ok ([], [])
  | r :: reading', x :: items' =>
      '(readList, writeList) ← splitReadWrite reading' items';
      Ok (if r then (x :: readList, writeList) else (readList, x :: writeList))
  | _, _ => Panic InvalidArgument
  end.

(** Modelled from the spec: [joinReadWrite] is called by [ApplyBlock] and
    [PropagateGradient] but its body is not among the sources. It merges
    the reading and the writing items back into batch order, taking the
    next reading item at a true flag and the next writing item at a false
    one; lists that do not hold exactly as many items as there are flags
    of their kind are an invalid argument. *)
Fixpoint joinReadWrite {T} (reading : list bool) (readList writeList : list T)
  : result (list T) :=
  match reading with
  | [] =>
      match readList, writeList with
      | [], [] => Ok []
      | _, _ => Panic InvalidArgument
      end
  | true :: reading' =>
      match readList with
      | x :: readList' =>
          joined ← joinReadWrite reading' readList' writeList;
          Ok (x :: joined)
      | [] => Panic InvalidArgument
      end
  | false :: reading' =>
      match writeList with
      | x :: writeList' =>
          joined ← joinReadWrite reading' readList writeList';
          Ok (x :: joined)
      | [] => Panic InvalidArgument
      end
  end.

(** The items at the flags equal to [r], in order. *)
Fixpoint pick {T} (r : bool) (reading : list bool) (items : list T) : list T :=
  match reading, items with
  | f :: reading', x :: items' =>
      if Bool.eqb f r then x :: pick r reading' items' else pick r reading' items'
  | _, _ => []
  end.

(** The number of flags equal to [r]. *)
Definition countFlag (r : bool) (reading : list bool) : nat :=
  length (filter (λ f, f = r) reading).

(** ** Package rnn: cells

    [rnn.State], [rnn.StateGrad], [autofunc.Gradient] and their forward-mode
    counterparts are Go interfaces; their dynamic types are the carriers
    below. *)

Class Carrier := {
  rnn_State : Type;
  rnn_StateGrad : Type;
  rnn_RState : Type;
  rnn_RStateGrad : Type;
  autofunc_Gradient : Type;
  autofunc_RGradient : Type;
  autofunc_RVector : Type;
}.

(** [autofunc.RResult]: an input with its directional derivative. An
    [autofunc.Result] input is represented by its [Output()] vector. *)
Record autofunc_RResult := {
  Output : Vector;
  ROutput : Vector;
}.

Section Block.
Context `{Carrier}.

(** [rnn.BlockResult]. [PropagateGradient] adds to the gradient [g] in
    place; here the updated gradient is returned with the state
    gradients. *)
Record rnn_BlockResult := {
  Outputs : list Vector;
  States : list rnn_State;
  PropagateGradient :
    list Vector → list rnn_StateGrad → autofunc_Gradient →
    result (list rnn_StateGrad * autofunc_Gradient);
}.

(** [rnn.BlockRResult]. *)
Record rnn_BlockRResult := {
  R_Outputs : list Vector;
  ROutputs : list Vector;
  RStates : list rnn_RState;
  PropagateRGradient :
    list Vector → list Vector → list rnn_RStateGrad →
    autofunc_RGradient → autofunc_Gradient →
    result (list rnn_RStateGrad * (autofunc_RGradient * autofunc_Gradient));
}.

(** [rnn.Block], the methods used here. *)
Record rnn_Block := {
  rnn_StartState : rnn_State;
  rnn_StartRState : autofunc_RVector → rnn_RState;
  rnn_ApplyBlock : list rnn_State → list Vector → result rnn_BlockResult;
  rnn_ApplyBlockR :
    autofunc_RVector → list rnn_RState → list autofunc_RResult →
    result rnn_BlockRResult;
}.

(** ** Calls of the cells, logged *)

Inductive cell := ReaderCell | WriterCell.

Inductive Call :=
| CallApplyBlock (c : cell) (s : list rnn_State) (ins : list Vector)
| CallApplyBlockR (c : cell) (rv : autofunc_RVector) (s : list rnn_RState)
    (ins : list autofunc_RResult).

Definition callee (c : Call) : cell :=
  match c with
  | CallApplyBlock c _ _ => c
  | CallApplyBlockR c _ _ _ => c
  end.

(** A computation that calls cells: the calls made, and how it ended. *)
Record Exec (A : Type) := MkExec {
  calls : list Call;
  outcome : result A;
}.
Arguments MkExec {A} calls outcome.
Arguments calls {A} e.
Arguments outcome {A} e.

#[global] Instance Exec_ret : MRet Exec := fun _ a => MkExec [] (Ok a).
#[global] Instance Exec_bind : MBind Exec := fun _ _ k m =>
  match outcome m with
  | Ok a => MkExec (calls m ++ calls (k a)) (outcome (k a))
  | Panic e => MkExec (calls m) (Panic e)
  end.

(** A step that calls no cell. *)
Definition lift {A} (r : result A) : Exec A := MkExec [] r.

(** A call of a cell with its outcome. *)
Definition invoke {A} (c : Call) (r : result A) : Exec A := MkExec [c] r.

(** ** The block *)

Record blockState := {
  Reading : bool;
  State : rnn_State;
}.

Record blockRState := {
  ReadingR : bool;
  StateR : rnn_RState;
}.

Record Block := {
  Reader : rnn_Block;
  Writer : rnn_Block;
}.

Definition cellOf (b : Block) (c : cell) : rnn_Block :=
  match c with
  | ReaderCell => Reader b
  | WriterCell => Writer b
  end.

Record blockResult := {
  res_Reading : list bool;
  ReadRes : rnn_BlockResult;
  WriteRes : rnn_BlockResult;
  OutVecs : list Vector;
  OutStates : list blockState;
}.

Record blockRResult := {
  resR_Reading : list bool;
  ReadResR : rnn_BlockRResult;
  WriteResR : rnn_BlockRResult;
  OutVecsR : list Vector;
  ROutVecs : list Vector;
  OutStatesR : list blockRState;
}.

(** [emptyResult{}] as an [rnn.BlockResult]: every method returns nil. *)
Definition emptyResult : rnn_BlockResult := {|
  Outputs := [];
  States := [];
  PropagateGradient := λ u s g, Ok ([], g);
|}.

(** [emptyResult{}] as an [rnn.BlockRResult]. *)
Definition emptyRResult : rnn_BlockRResult := {|
  R_Outputs := [];
  ROutputs := [];
  RStates := [];
  PropagateRGradient := λ u uR s rg g, Ok ([], (rg, g));
|}.

Definition Block_StartState (b : Block) : blockState :=
  {| Reading := true; State := rnn_StartState (Reader b) |}.

Definition Block_StartRState (b : Block) (rv : autofunc_RVector) : blockRState :=
  {| ReadingR := true; StateR := rnn_StartRState (Reader b) rv |}.

(** The loop that closes [ApplyBlock]: sequence [i] stays reading only if
    it was reading and the Terminator component of its input is zero. The
    input is read only for a reading sequence ([&&] is short-circuit). *)
Fixpoint nextStates (i : nat) (s : list blockState) (ins : list Vector)
    (internalStates : list rnn_State) : result (list blockState) :=
  match s with
  | [] => Ok []
  | x :: s' =>
      reading ←
        (if Reading x then
           v ← index ins i;
           t ← index v (Z.to_nat Terminator);
           Ok (PrimFloat.eqb t 0%float)
         else Ok false);
      st ← index internalStates i;
      rest ← nextStates (S i) s' ins internalStates;
      Ok ({| Reading := reading; State := st |} :: rest)
  end.

(** [ApplyBlock]: split states and inputs by phase, step the reader on the
    reading part and the writer on the writing part (a cell is called only
    on a non-empty part), join outputs and states back into batch order,
    and compute the next phases. *)
Definition Block_ApplyBlock (b : Block) (s : list blockState) (ins : list Vector)
  : Exec blockResult :=
  let reading := Reading <$> s in
  let internalS := State <$> s in
  '(readS, writeS) ← lift (splitReadWrite reading internalS);
  '(readIn, writeIn) ← lift (splitReadWrite reading ins);
  readRes ←
    (if (0 <? length readIn)%nat
     then invoke (CallApplyBlock ReaderCell readS readIn)
                 (rnn_ApplyBlock (Reader b) readS readIn)
     else mret emptyResult);
  writeRes ←
    (if (0 <? length writeIn)%nat
     then invoke (CallApplyBlock WriterCell writeS writeIn)
                 (rnn_ApplyBlock (Writer b) writeS writeIn)
     else mret emptyResult);
  outVecs ← lift (joinReadWrite reading (Outputs readRes) (Outputs writeRes));
  internalStates ←
    lift (joinReadWrite reading (States readRes) (States writeRes));
  outStates ← lift (nextStates 0 s ins internalStates);
  mret {| res_Reading := reading; ReadRes := readRes; WriteRes := writeRes;
          OutVecs := outVecs; OutStates := outStates |}.

Fixpoint nextRStates (i : nat) (s : list blockRState) (ins : list autofunc_RResult)
    (internalStates : list rnn_RState) : result (list blockRState) :=
  match s with
  | [] => Ok []
  | x :: s' =>
      reading ←
        (if ReadingR x then
           v ← index ins i;
           t ← index (Output v) (Z.to_nat Terminator);
           Ok (PrimFloat.eqb t 0%float)
         else Ok false);
      st ← index internalStates i;
      rest ← nextRStates (S i) s' ins internalStates;
      Ok ({| ReadingR := reading; StateR := st |} :: rest)
  end.

(** [ApplyBlockR] is like [ApplyBlock], on forward-mode values. *)
Definition Block_ApplyBlockR (b : Block) (rv : autofunc_RVector)
    (s : list blockRState) (ins : list autofunc_RResult) : Exec blockRResult :=
  let reading := ReadingR <$> s in
  let internalS := StateR <$> s in
  '(readS, writeS) ← lift (splitReadWrite reading internalS);
  '(readIn, writeIn) ← lift (splitReadWrite reading ins);
  readRes ←
    (if (0 <? length readIn)%nat
     then invoke (CallApplyBlockR ReaderCell rv readS readIn)
                 (rnn_ApplyBlockR (Reader b) rv readS readIn)
     else mret emptyRResult);
  writeRes ←
    (if (0 <? length writeIn)%nat
     then invoke (CallApplyBlockR WriterCell rv writeS writeIn)
                 (rnn_ApplyBlockR (Writer b) rv writeS writeIn)
     else mret emptyRResult);
  outVecs ← lift (joinReadWrite reading (R_Outputs readRes) (R_Outputs writeRes));
  rOutVecs ← lift (joinReadWrite reading (ROutputs readRes) (ROutputs writeRes));
  internalStates ←
    lift (joinReadWrite reading (RStates readRes) (RStates writeRes));
  outStates ← lift (nextRStates 0 s ins internalStates);
  mret {| resR_Reading := reading; ReadResR := readRes; WriteResR := writeRes;
          OutVecsR := outVecs; ROutVecs := rOutVecs; OutStatesR := outStates |}.

Definition blockResult_Outputs (b : blockResult) : list Vector := OutVecs b.

Definition blockResult_States (b : blockResult) : list blockState := OutStates b.

(** [PropagateGradient]: split the upstream gradients by the flags of the
    forward step, run both backward passes on the same gradient [g] (the
    reader's first), and join the state gradients they return. *)
Definition blockResult_PropagateGradient (b : blockResult) (u : list Vector)
    (s : list rnn_StateGrad) (g : autofunc_Gradient)
  : result (list rnn_StateGrad * autofunc_Gradient) :=
  '(readU, writeU) ← splitReadWrite (res_Reading b) u;
  '(readS, writeS) ← splitReadWrite (res_Reading b) s;
  '(readDown, g) ← PropagateGradient (ReadRes b) readU readS g;
  '(writeDown, g) ← PropagateGradient (WriteRes b) writeU writeS g;
  down ← joinReadWrite (res_Reading b) readDown writeDown;
  Ok (down, g).

Definition blockRResult_PropagateRGradient (b : blockRResult) (u uR : list Vector)
    (s : list rnn_RStateGrad) (rg : autofunc_RGradient) (g : autofunc_Gradient)
  : result (list rnn_RStateGrad * (autofunc_RGradient * autofunc_Gradient)) :=
  '(readU, writeU) ← splitReadWrite (resR_Reading b) u;
  '(readUR, writeUR) ← splitReadWrite (resR_Reading b) uR;
  '(readS, writeS) ← splitReadWrite (resR_Reading b) s;
  '(readDown, (rg, g)) ← PropagateRGradient (ReadResR b) readU readUR readS rg g;
  '(writeDown, (rg, g)) ← PropagateRGradient (WriteResR b) writeU writeUR writeS rg g;
  down ← joinReadWrite (resR_Reading b) readDown writeDown;
  Ok (down, (rg, g)).

(** A run of the block over time: the batch of states before every step
    and after the last one. *)
Fixpoint run (b : Block) (s : list blockState) (inputs : list (list Vector))
  : result (list (list blockState)) :=
  match inputs with
  | [] => Ok [s]
  | ins :: inputs' =>
      res ← outcome (Block_ApplyBlock b s ins);
      trace ← run b (blockResult_States res) inputs';
      Ok (s :: trace)
  end.

(** ** The query driver *)

(** [rnn.Runner] of the imported package, the driver that feeds one
    sequence step by step: it keeps the state of the sequence between steps
    (the block's start state before the first), and [StepTime] applies the
    block to a batch of one, keeps the new state and returns the single
    output. *)
Record Runner := {
  Runner_Block : Block;
  currentState : option blockState;
}.

Definition Runner_StepTime (r : Runner) (input : Vector) : result (Vector * Runner) :=
  let cur :=
    match currentState r with
    | None => Block_StartState (Runner_Block r)
    | Some st => st
    end in
  out ← outcome (Block_ApplyBlock (Runner_Block r) [cur] [input]);
  st ← index (blockResult_States out) 0;
  v ← index (blockResult_Outputs out) 0;
  Ok (v, {| Runner_Block := Runner_Block r; currentState := Some st |}).

(** [linalg.Vector.Max] of the imported package: the greatest component
    and its index, the first one among equals. *)
Fixpoint maxFrom (v : list float) (i : nat) (best : float) (bestIdx : nat)
  : float * nat :=
  match v with
  | [] => (best, bestIdx)
  | x :: rest =>
      if PrimFloat.ltb best x then maxFrom rest (S i) x i
      else maxFrom rest (S i) best bestIdx
  end.

Definition Vector_Max (v : Vector) : float * nat :=
  match v with
  | [] => (0%float, 0%nat)
  | x :: rest => maxFrom rest 1 x 0
  end.

(** [rune(n)] for an [int]: the low 32 bits, signed. *)
Definition rune_of_int (n : Z) : rune :=
  (n + 2 ^ 31) mod 2 ^ 32 - 2 ^ 31.

Definition byte := Z.

Definition validRune (r : rune) : bool :=
  (0 <=? r) && (r <=? 0x10FFFF) && negb ((0xD800 <=? r) && (r <=? 0xDFFF)).

(** [string(r)]: the UTF-8 bytes of the rune, those of U+FFFD for an
    invalid one. *)
Definition string_of_rune (r : rune) : list byte :=
  let r := if validRune r then r else 0xFFFD in
  if r <? 0x80 then [r]
  else if r <? 0x800 then
    [Z.lor 0xC0 (Z.shiftr r 6); Z.lor 0x80 (Z.land r 0x3F)]
  else if r <? 0x10000 then
    [Z.lor 0xE0 (Z.shiftr r 12);
     Z.lor 0x80 (Z.land (Z.shiftr r 6) 0x3F);
     Z.lor 0x80 (Z.land r 0x3F)]
  else
    [Z.lor 0xF0 (Z.shiftr r 18);
     Z.lor 0x80 (Z.land (Z.shiftr r 12) 0x3F);
     Z.lor 0x80 (Z.land (Z.shiftr r 6) 0x3F);
     Z.lor 0x80 (Z.land r 0x3F)].

(** The first loop of [Query]: one step per rune of the query, except the
    runes for which [x < 0 || x > 128] holds. *)
Fixpoint feedQuery (r : Runner) (q : list rune) : result Runner :=
  match q with
  | [] => Ok r
  | x :: q' =>
      if (x <? 0) || (x >? 128) then feedQuery r q'
      else
        v ← oneHotVector x;
        '(_, r) ← Runner_StepTime r v;
        feedQuery r q'
  end.

(** [string(r)] is never empty. *)
Lemma string_of_rune_length (r : rune) : (1 ≤ length (string_of_rune r))%nat.
Proof. unfold string_of_rune. repeat case_match; cbn; lia. Qed.

(** The second loop of [Query]. It ends: an iteration that does not break
    found [len(res) < maxResponseLen] and makes [res] longer. *)
Equations? decodeLoop (r : Runner) (lastOut : rune) (res : list byte)
  : result (list byte)
  by wf (Z.to_nat (maxResponseLen - Z.of_nat (length res))) lt :=
decodeLoop r lastOut res with oneHotVector lastOut := {
  | Panic e => Panic e
  | Ok v with Runner_StepTime r v := {
    | Panic e => Panic e
    | Ok (pair nextVec r') with Vector_Max nextVec := {
      | pair _ nextIdx with
          inspect ((rune_of_int (Z.of_nat nextIdx) =? 0)
                   || (Z.of_nat (length res) >=? maxResponseLen)) := {
        | exist _ true _ => Ok res
        | exist _ false Hgo =>
            decodeLoop r' (rune_of_int (Z.of_nat nextIdx))
              (res ++ string_of_rune (rune_of_int (Z.of_nat nextIdx))) } } } }.
Proof.
  apply orb_false_iff in Hgo as [_ Hlen].
  pose proof (string_of_rune_length (rune_of_int (Z.of_nat nextIdx))).
  rewrite length_app. lia.
Defined.

Definition Block_Query (b : Block) (q : list rune) : result (list byte) :=
  let r := {| Runner_Block := b; currentState := None |} in
  r ← feedQuery r q;
  v ← oneHotVector Terminator;
  '(_, r) ← Runner_StepTime r v;
  decodeLoop r Terminator [].

(** ** Vocabulary of the statements *)

(** The Terminator component of an input is zero ([== 0] on floats). *)
Definition terminatorIsZero (v : Vector) : Prop :=
  ∃ t, v !! Z.to_nat Terminator = Some t ∧ PrimFloat.eqb t 0%float = true.

(** What the step of cell [c] contributes for its part of the batch: the
    cell's result when the part is not empty, the empty result otherwise. *)
Definition partResult (b : Block) (c : cell) (states : list rnn_State)
    (ins : list Vector) : result rnn_BlockResult :=
  if (0 <? length ins)%nat then rnn_ApplyBlock (cellOf b c) states ins
  else Ok emptyResult.

Definition partRResult (b : Block) (c : cell) (rv : autofunc_RVector)
    (states : list rnn_RState) (ins : list autofunc_RResult)
  : result rnn_BlockRResult :=
  if (0 <? length ins)%nat then rnn_ApplyBlockR (cellOf b c) rv states ins
  else Ok emptyRResult.

(** The shape of a cell's result on a batch of [n] sequences: one output
    and one state per sequence. *)
Definition shapeOk (n : nat) (r : rnn_BlockResult) : Prop :=
  length (Outputs r) = n ∧ length (States r) = n.

(** The backward pass of a cell's result keeps the shape: given one
    output gradient and one state gradient per sequence it returns one
    state gradient per sequence. *)
Definition gradOk (r : rnn_BlockResult) : Prop :=
  ∀ u sg g,
    length u = length (States r) → length sg = length (States r) →
    ∃ down g', PropagateGradient r u sg g = Ok (down, g') ∧
               length down = length (States r).

(** The call that this contribution logs. *)
Definition partCalls (c : cell) (states : list rnn_State) (ins : list Vector)
  : list Call :=
  if (0 <? length ins)%nat then [CallApplyBlock c states ins] else [].

Definition partRCalls (c : cell) (rv : autofunc_RVector)
    (states : list rnn_RState) (ins : list autofunc_RResult) : list Call :=
  if (0 <? length ins)%nat then [CallApplyBlockR c rv states ins] else [].

(** One round of the feedback loop as the specification words it: encode
    the previous symbol, step, decode the output by argmax. *)
Definition decodeStep (r : Runner) (lastOut : rune) : result (rune * Runner) :=
  v ← oneHotVector lastOut;
  '(nextVec, r) ← Runner_StepTime r v;
  Ok (rune_of_int (Z.of_nat (Vector_Max nextVec).2), r).

(** The first [n] symbols decoded when every output is fed back, starting
    from the symbol [lastOut]. *)
Fixpoint decoded (n : nat) (r : Runner) (lastOut : rune) : result (list rune) :=
  match n with
  | O => Ok []
  | S n' =>
      '(sym, r) ← decodeStep r lastOut;
      syms ← decoded n' r sym;
      Ok (sym :: syms)
  end.

End Block.

Arguments MkExec {_ A} calls outcome.
Arguments calls {_ A} e.
Arguments outcome {_ A} e.

(** ** Stub cells, for running the block on concrete batches *)

Definition stubCarrier : Carrier := {|
  rnn_State := nat;
  rnn_StateGrad := nat;
  rnn_RState := nat;
  rnn_RStateGrad := nat;
  autofunc_Gradient := nat;
  autofunc_RGradient := nat;
  autofunc_RVector := unit;
|}.

Section Stubs.
#[local] Existing Instance stubCarrier.

(** A result whose backward pass hands the upstream state gradients down
    and counts them in the gradient. *)
Definition stubResult (outs : list Vector) (states : list nat)
  : @rnn_BlockResult stubCarrier := {|
  Outputs := outs;
  States := states;
  PropagateGradient := λ u s g, Ok (s, (g + length s)%nat);
|}.

Definition stubRResult (outs routs : list Vector) (states : list nat)
  : @rnn_BlockRResult stubCarrier := {|
  R_Outputs := outs;
  ROutputs := routs;
  RStates := states;
  PropagateRGradient := λ u uR s rg g, Ok (s, (rg, (g + length s)%nat));
|}.

(** The symbol a spelling cell emits in state [n]: the [n]-th rune of its
    word, then the Terminator. *)
Definition spell (word : list rune) (n : nat) : Vector :=
  match oneHotVector (default Terminator (word !! n)) with
  | Ok v => v
  | Panic _ => []
  end.

(** A cell that echoes its inputs and keeps its states at 0. *)
Definition echoCell : @rnn_Block stubCarrier := {|
  rnn_StartState := 0%nat;
  rnn_StartRState := λ _, 0%nat;
  rnn_ApplyBlock := λ s ins, Ok (stubResult ins ((λ _, 0%nat) <$> s));
  rnn_ApplyBlockR := λ _ s ins,
    Ok (stubRResult (Output <$> ins) (ROutput <$> ins) ((λ _, 0%nat) <$> s));
|}.

(** A cell that spells [word], one rune per step, counting steps in its
    state. *)
Definition spellCell (word : list rune) : @rnn_Block stubCarrier := {|
  rnn_StartState := 0%nat;
  rnn_StartRState := λ _, 0%nat;
  rnn_ApplyBlock := λ s ins, Ok (stubResult (spell word <$> s) (S <$> s));
  rnn_ApplyBlockR := λ _ s ins,
    Ok (stubRResult (spell word <$> s) (spell word <$> s) (S <$> s));
|}.

Definition stubBlock (word : list rune) : @Block stubCarrier := {|
  Reader := echoCell;
  Writer := spellCell word;
|}.

(** A state of the stub block. *)
Definition stubState (reading : bool) (n : nat) : @blockState stubCarrier :=
  {| Reading := reading; State := n |}.

(** A vector whose Terminator component is [t]. *)
Definition flagged (t : float) : Vector := [t; 0%float].

End Stubs.

(** ** Further vocabulary *)

(** The symbol [Query] reads off an output vector: [rune(nextIdx)] for the
    index that [Max] returns. *)
Definition decodeSymbol (v : Vector) : rune :=
  rune_of_int (Z.of_nat (Vector_Max v).2).

(** The runes that the guard [x < 0 || x > 128] of [Query] lets through. *)
Definition passesGuard (x : rune) : Prop := 0 ≤ x ≤ 128.

Section RunnerVocabulary.
Context `{Carrier}.

(** The state a runner steps from: its stored state, the block's start
    state before the first step. *)
Definition Runner_state (r : Runner) : blockState :=
  match currentState r with
  | None => Block_StartState (Runner_Block r)
  | Some st => st
  end.


(** Feeding vectors to a runner one after the other. *)
Fixpoint stepAll (r : Runner) (vs : list Vector) : result Runner :=
  match vs with
  | [] => Ok r
  | v :: vs' =>
      '(_, r) ← Runner_StepTime r v;
      stepAll r vs'
  end.

End RunnerVocabulary.

Section MoreStubs.
#[local] Existing Instance stubCarrier.

(** A forward-mode state of the stub block. *)
Definition stubRState (reading : bool) (n : nat) : @blockRState stubCarrier :=
  {| ReadingR := reading; StateR := n |}.

(** A forward-mode input whose value has the Terminator component [t]. *)
Definition flaggedR (t : float) : autofunc_RResult :=
  {| Output := flagged t; ROutput := [0%float; 1%float] |}.

End MoreStubs.

(** * Properties *)

(** ** Facts about the outcome monad *)

Lemma bind_Ok {A B} (m : result A) (k : A → result B) (b : B) :
  m ≫= k = Ok b ↔ ∃ a, m = Ok a ∧ k a = Ok b.
Proof.
  destruct m as [a|e]; cbn.
  - split; [eauto | intros (a' & [= ->] & H); exact H].
  - split; [discriminate | intros (a' & [=] & _)].
Qed.

Lemma index_Ok {A} (l : list A) (i : nat) (a : A) :
  index l i = Ok a ↔ l !! i = Some a.
Proof.
  unfold index. destruct (l !! i); split; congruence.
Qed.

Lemma float_one_ne_zero : 1%float ≠ 0%float.
Proof.
  intros H. discriminate (f_equal (fun x => PrimFloat.eqb x 0%float) H).
Qed.

(** ** The one-hot encoder *)

Lemma oneHotVector_Panic_iff (x : rune) :
  (∃ e, oneHotVector x = Panic e) ↔ ¬ inRange x.
Proof.
  unfold oneHotVector, inRange, CharCount.
  destruct (orb _ _) eqn:Hb.
  - split; [intros _; lia | eauto].
  - split; [intros [e [=]] | lia].
Qed.

Lemma oneHotVector_out_of_range (x : rune) :
  ¬ inRange x → oneHotVector x = Panic (RuneOutOfRange x).
Proof.
  unfold oneHotVector, inRange, CharCount. intros H.
  destruct (orb _ _) eqn:Hb; [done | lia].
Qed.

Lemma oneHotVector_in_range (x : rune) :
  inRange x →
  oneHotVector x =
    Ok (<[Z.to_nat x := 1%float]> (replicate (Z.to_nat CharCount) 0%float)).
Proof.
  unfold oneHotVector, inRange, CharCount. intros H.
  destruct (orb _ _) eqn:Hb; [lia | done].
Qed.

(** C8. [oneHotVector] panics exactly on the runes outside
    [0, CharCount); on a rune inside it returns a vector of [CharCount]
    entries whose entry at the rune's index is 1 and whose other entries
    are 0 (so exactly one entry is the unit). *)
Theorem oneHotVector_spec (x : rune) :
  ((∃ e, oneHotVector x = Panic e) ↔ ¬ inRange x) ∧
  (inRange x →
   ∃ v, oneHotVector x = Ok v ∧
        length v = Z.to_nat CharCount ∧
        v !! Z.to_nat x = Some 1%float ∧
        (∀ j, j ≠ Z.to_nat x → (j < Z.to_nat CharCount)%nat →
              v !! j = Some 0%float) ∧
        (∀ j, v !! j = Some 1%float ↔ j = Z.to_nat x)).
Proof.
  split; [apply oneHotVector_Panic_iff |].
  intros Hx. eexists. split; [by apply oneHotVector_in_range |].
  assert (Hlt : (Z.to_nat x < Z.to_nat CharCount)%nat)
    by (unfold inRange in Hx; lia).
  assert (Hother : ∀ j, j ≠ Z.to_nat x → (j < Z.to_nat CharCount)%nat →
    <[Z.to_nat x := 1%float]> (replicate (Z.to_nat CharCount) 0%float) !! j
      = Some 0%float).
  { intros j Hj Hjlt. rewrite list_lookup_insert_ne by done.
    by apply lookup_replicate. }
  split_and!.
  - by rewrite length_insert, length_replicate.
  - apply list_lookup_insert_eq. by rewrite length_replicate.
  - exact Hother.
  - intros j. split.
    + intros Hj. destruct (decide (j = Z.to_nat x)) as [|Hne]; [done |].
      assert (Hjlt : (j < Z.to_nat CharCount)%nat).
      { pose proof (lookup_lt_Some _ _ _ Hj) as Hlen.
        by rewrite length_insert, length_replicate in Hlen. }
      rewrite (Hother j Hne Hjlt) in Hj.
      destruct float_one_ne_zero. symmetry. by apply (inj Some).
    + intros ->. apply list_lookup_insert_eq. by rewrite length_replicate.
Qed.

Lemma oneHotVector_spec_witness :
  inRange 53 ∧
  ∃ v, oneHotVector 53 = Ok v ∧
       length v = Z.to_nat CharCount ∧
       v !! Z.to_nat 53 = Some 1%float ∧
       (∀ j, j ≠ Z.to_nat 53 → (j < Z.to_nat CharCount)%nat →
             v !! j = Some 0%float) ∧
       (∀ j, v !! j = Some 1%float ↔ j = Z.to_nat 53).
Proof.
  assert (H : inRange 53) by (unfold inRange, CharCount; lia).
  split; [exact H | exact (proj2 (oneHotVector_spec 53) H)].
Defined.

(** ** The sample's encoder input *)

Lemma encodeRunes_rejects (str : list rune) :
  (∃ x, x ∈ str ∧ ¬ inRange x) →
  ∃ x, x ∈ str ∧ ¬ inRange x ∧ encodeRunes str = Panic (RuneOutOfRange x).
Proof.
  induction str as [|y rest IH]; intros (x & Hin & Hx).
  - by apply elem_of_nil in Hin.
  - destruct (decide (inRange y)) as [Hy|Hy].
    + apply elem_of_cons in Hin as [->|Hin]; [done |].
      destruct IH as (x' & Hin' & Hx' & Hrun); [eauto |].
      exists x'. split_and!; [by right | done |].
      cbn. rewrite (oneHotVector_in_range y Hy). cbn. by rewrite Hrun.
    + exists y. split_and!; [by left | done |].
      cbn. by rewrite (oneHotVector_out_of_range y Hy).
Qed.

Lemma encodeRunes_accepts (str : list rune) :
  Forall inRange str →
  ∃ vs, encodeRunes str = Ok vs ∧ length vs = length str.
Proof.
  induction 1 as [|y rest Hy _ (vs & Hvs & Hlen)]; [by exists [] |].
  eexists. cbn. rewrite (oneHotVector_in_range y Hy). cbn. rewrite Hvs. cbn.
  split; [done |]. cbn. by rewrite Hlen.
Qed.

(** C10. A sample whose query holds a rune outside [0, CharCount) makes
    [Sample.InputSequence] panic in the one-hot encoder, at the first such
    rune: nothing is skipped. A query of in-range runes only is encoded
    rune by rune. *)
Theorem Sample_InputSequence_strict (s : Sample) :
  ((∃ x, x ∈ Query s ∧ ¬ inRange x) →
   ∃ x, x ∈ Query s ∧ ¬ inRange x ∧
        Sample_InputSequence s = Panic (RuneOutOfRange x)) ∧
  (Forall inRange (Query s) →
   ∃ vs, Sample_InputSequence s = Ok vs ∧ length vs = length (Query s)).
Proof.
  split; [apply encodeRunes_rejects | apply encodeRunes_accepts].
Qed.


Lemma Sample_InputSequence_strict_witness :
  ∃ x, x ∈ [53; 233; 51] ∧ ¬ inRange x ∧
       Sample_InputSequence {| Query := [53; 233; 51]; Response := [56] |}
         = Panic (RuneOutOfRange x).
Proof.
  apply (proj1 (Sample_InputSequence_strict
                  {| Query := [53; 233; 51]; Response := [56] |})).
  exists 233. split.
  - cbn. right. left.
  - unfold inRange, CharCount. lia.
Defined.

(** ** The batch partitioner *)

Section Partitioner.
Context {T : Type}.
Implicit Types (reading : list bool) (items readList writeList joined : list T).

Lemma splitReadWrite_Ok reading items :
  length reading = length items →
  splitReadWrite reading items =
    Ok (pick true reading items, pick false reading items).
Proof.
  revert items. induction reading as [|r reading IH]; intros [|x items] Hlen;
    try discriminate; [done |].
  cbn. rewrite IH by (cbn in Hlen; lia). by destruct r.
Qed.

Lemma splitReadWrite_Panic reading items :
  length reading ≠ length items →
  splitReadWrite reading items = Panic InvalidArgument.
Proof.
  revert items. induction reading as [|r reading IH]; intros [|x items] Hlen;
    try done.
  cbn. rewrite IH; [done | cbn in Hlen; lia].
Qed.

Lemma splitReadWrite_Ok_inv reading items readList writeList :
  splitReadWrite reading items = Ok (readList, writeList) →
  length reading = length items ∧
  readList = pick true reading items ∧ writeList = pick false reading items.
Proof.
  intros Hs. destruct (decide (length reading = length items)) as [Hlen|Hlen].
  - rewrite splitReadWrite_Ok in Hs by done. by injection Hs as <- <-.
  - by rewrite splitReadWrite_Panic in Hs.
Qed.

Lemma length_pick r reading items :
  length reading = length items →
  length (pick r reading items) = countFlag r reading.
Proof.
  unfold countFlag. revert items.
  induction reading as [|f reading IH]; intros [|x items] Hlen;
    try discriminate; [done |].
  cbn in Hlen. cbn [pick]. rewrite filter_cons.
  destruct f, r; cbn; rewrite ?decide_True, ?decide_False by done;
    cbn; rewrite IH; lia.
Qed.

Lemma countFlag_total reading :
  (countFlag true reading + countFlag false reading)%nat = length reading.
Proof.
  unfold countFlag. induction reading as [|[] reading IH]; [done | |];
    rewrite !filter_cons; repeat case_decide; try done; cbn; lia.
Qed.

Lemma pick_filter r reading items :
  pick r reading items = (filter (λ p, p.1 = r) (zip reading items)).*2.
Proof.
  revert items. induction reading as [|f reading IH]; intros [|x items];
    try done.
  cbn [pick zip zip_with]. rewrite filter_cons. cbn.
  destruct f, r; cbn; by rewrite IH.
Qed.

Lemma joinReadWrite_pick reading items :
  length reading = length items →
  joinReadWrite reading (pick true reading items) (pick false reading items)
    = Ok items.
Proof.
  revert items. induction reading as [|r reading IH]; intros [|x items] Hlen;
    try discriminate; [done |].
  destruct r; cbn; rewrite IH by (cbn in Hlen; lia); done.
Qed.

Lemma joinReadWrite_Ok_inv reading readList writeList joined :
  joinReadWrite reading readList writeList = Ok joined →
  length joined = length reading ∧
  readList = pick true reading joined ∧ writeList = pick false reading joined.
Proof.
  revert readList writeList joined.
  induction reading as [|r reading IH]; intros readList writeList joined.
  - destruct readList, writeList; cbn; try discriminate. by intros [= <-].
  - destruct r; cbn.
    + destruct readList as [|x readList]; [discriminate |].
      intros (j & Hj & [= <-])%bind_Ok.
      destruct (IH _ _ _ Hj) as (? & ? & ?). cbn. by repeat (f_equal || split).
    + destruct writeList as [|x writeList]; [discriminate |].
      intros (j & Hj & [= <-])%bind_Ok.
      destruct (IH _ _ _ Hj) as (? & ? & ?). cbn. by repeat (f_equal || split).
Qed.

Lemma joinReadWrite_Ok reading readList writeList :
  length readList = countFlag true reading →
  length writeList = countFlag false reading →
  ∃ joined, joinReadWrite reading readList writeList = Ok joined.
Proof.
  unfold countFlag. revert readList writeList.
  induction reading as [|r reading IH]; intros readList writeList Hr Hw.
  - destruct readList, writeList; try discriminate. by exists [].
  - rewrite filter_cons in Hr, Hw. destruct r; cbn in *.
    + destruct readList as [|x readList]; [discriminate |].
      destruct (IH readList writeList) as [j Hj];
        [by injection Hr | done |].
      exists (x :: j). by rewrite Hj.
    + destruct writeList as [|x writeList]; [discriminate |].
      destruct (IH readList writeList) as [j Hj];
        [done | by injection Hw |].
      exists (x :: j). by rewrite Hj.
Qed.

Lemma joinReadWrite_length reading readList writeList joined :
  joinReadWrite reading readList writeList = Ok joined →
  length readList = countFlag true reading ∧
  length writeList = countFlag false reading.
Proof.
  intros (Hlen & -> & ->)%joinReadWrite_Ok_inv.
  by rewrite !length_pick.
Qed.

(** With no flag equal to [negb r], the items at the flags [r] are all of
    them. *)
Lemma pick_all r reading items :
  length reading = length items →
  Forall (λ f, f = r) reading →
  pick r reading items = items ∧ pick (negb r) reading items = [].
Proof.
  intros Hlen Hall. revert items Hlen.
  induction Hall as [|f reading -> _ IH]; intros [|x items] Hlen;
    try discriminate; [done |].
  cbn. destruct (IH items) as [-> ->]; [cbn in Hlen; lia |].
  by destruct r.
Qed.

End Partitioner.

(** C2. Splitting a batch by a flag vector of the same length and joining
    the two parts by the same flags gives the batch back. The reading part
    holds exactly the items at the true flags and the writing part those at
    the false flags, both in batch order; the reading part has as many
    items as there are true flags, the writing part the rest. *)
Theorem split_join_inverse {T : Type} (f : list bool) (x : list T) :
  length f = length x →
  ∃ readItems writeItems,
    splitReadWrite f x = Ok (readItems, writeItems) ∧
    joinReadWrite f readItems writeItems = Ok x ∧
    readItems = (filter (λ p, p.1 = true) (zip f x)).*2 ∧
    writeItems = (filter (λ p, p.1 = false) (zip f x)).*2 ∧
    length readItems = countFlag true f ∧
    length writeItems = (length x - countFlag true f)%nat.
Proof.
  intros Hlen. exists (pick true f x), (pick false f x). split_and!.
  - by apply splitReadWrite_Ok.
  - by apply joinReadWrite_pick.
  - apply pick_filter.
  - apply pick_filter.
  - by apply length_pick.
  - rewrite length_pick by done. pose proof (countFlag_total f). lia.
Qed.

Lemma split_join_inverse_witness :
  ∃ readItems writeItems,
    splitReadWrite [true; false; true; true] [10; 20; 30; 40]
      = Ok (readItems, writeItems) ∧
    joinReadWrite [true; false; true; true] readItems writeItems
      = Ok [10; 20; 30; 40] ∧
    readItems =
      (filter (λ p, p.1 = true) (zip [true; false; true; true] [10; 20; 30; 40])).*2 ∧
    writeItems =
      (filter (λ p, p.1 = false) (zip [true; false; true; true] [10; 20; 30; 40])).*2 ∧
    length readItems = countFlag true [true; false; true; true] ∧
    length writeItems =
      (length [10; 20; 30; 40] - countFlag true [true; false; true; true])%nat.
Proof.
  apply (split_join_inverse [true; false; true; true] [10; 20; 30; 40]).
  reflexivity.
Defined.

(** ** One step of the block *)

Section ExecFacts.
Context `{Carrier}.

Lemma result_bind_Ok {A B} (a : A) (k : A → result B) : Ok a ≫= k = k a.
Proof. done. Qed.

Lemma result_bind_Panic {A B} (e : panic) (k : A → result B) :
  Panic e ≫= k = Panic e.
Proof. done. Qed.

Lemma Exec_bind_outcome {A B} (m : Exec A) (k : A → Exec B) :
  outcome (m ≫= k) = outcome m ≫= λ a, outcome (k a).
Proof. unfold mbind, Exec_bind, result_bind. by destruct (outcome m). Qed.

Lemma Exec_bind_calls {A B} (m : Exec A) (k : A → Exec B) :
  calls (m ≫= k) =
    match outcome m with
    | Ok a => calls m ++ calls (k a)
    | Panic e => calls m
    end.
Proof. unfold mbind, Exec_bind. by destruct (outcome m). Qed.

Lemma Exec_bind_outcome_ext {A B} (m : Exec A) (k : A → Exec B)
    (m' : result A) (k' : A → result B) :
  outcome m = m' → (∀ a, outcome (k a) = k' a) →
  outcome (m ≫= k) = m' ≫= k'.
Proof.
  intros <- Hk. rewrite Exec_bind_outcome.
  destruct (outcome m); [apply Hk | done].
Qed.

(** A computation that logs no call whatever it is continued with. *)
Lemma Exec_bind_lift_calls {A B} (r : result A) (k : A → Exec B) :
  (∀ a, calls (k a) = []) → calls (lift r ≫= k) = [].
Proof.
  intros Hk. rewrite Exec_bind_calls. cbn [lift outcome calls].
  destruct r; [apply Hk | done].
Qed.

End ExecFacts.

(** Reads the outcome of a logged computation through its binds, leaving
    the steps that computation does not close. *)
Ltac exec_outcome :=
  repeat (apply Exec_bind_outcome_ext;
          [ try reflexivity
          | let a := fresh "a" in
            intros a;
            try lazymatch type of a with prod _ _ => destruct a end ]).

Section BlockFacts.
Context `{Carrier}.
Implicit Types (b : Block) (s : list blockState) (ins : list Vector).

(** The outcome of [ApplyBlock], with the call log left out. *)
Lemma ApplyBlock_outcome b s ins :
  outcome (Block_ApplyBlock b s ins) =
    (let reading := Reading <$> s in
     '(readS, writeS) ← splitReadWrite reading (State <$> s);
     '(readIn, writeIn) ← splitReadWrite reading ins;
     readRes ← partResult b ReaderCell readS readIn;
     writeRes ← partResult b WriterCell writeS writeIn;
     outVecs ← joinReadWrite reading (Outputs readRes) (Outputs writeRes);
     internalStates ← joinReadWrite reading (States readRes) (States writeRes);
     outStates ← nextStates 0 s ins internalStates;
     Ok {| res_Reading := reading; ReadRes := readRes; WriteRes := writeRes;
           OutVecs := outVecs; OutStates := outStates |}).
Proof.
  unfold Block_ApplyBlock, partResult. cbv zeta.
  exec_outcome; try done; by case_match.
Qed.

(** The calls [ApplyBlock] makes: none when the inputs do not match the
    states in number; else the reader on the reading part if there is one,
    then (unless the reader panicked) the writer on the writing part if
    there is one. *)
Lemma ApplyBlock_calls b s ins :
  calls (Block_ApplyBlock b s ins) =
    (let reading := Reading <$> s in
     match splitReadWrite reading (State <$> s), splitReadWrite reading ins with
     | Ok (readS, writeS), Ok (readIn, writeIn) =>
         partCalls ReaderCell readS readIn ++
         match partResult b ReaderCell readS readIn with
         | Ok _ => partCalls WriterCell writeS writeIn
         | Panic _ => []
         end
     | _, _ => []
     end).
Proof.
  unfold Block_ApplyBlock, partResult, partCalls. cbv zeta.
  rewrite Exec_bind_calls. cbn [lift outcome calls].
  destruct (splitReadWrite _ (State <$> s)) as [[readS writeS]|]; [|done].
  rewrite app_nil_l, Exec_bind_calls. cbn [lift outcome calls].
  destruct (splitReadWrite _ ins) as [[readIn writeIn]|]; [|done].
  rewrite app_nil_l, Exec_bind_calls.
  assert (Htail : ∀ readRes writeRes,
    calls (lift (joinReadWrite (Reading <$> s) (Outputs readRes) (Outputs writeRes))
      ≫= λ outVecs,
        lift (joinReadWrite (Reading <$> s) (States readRes) (States writeRes))
        ≫= λ internalStates,
          lift (nextStates 0 s ins internalStates)
          ≫= λ outStates,
            mret {| res_Reading := Reading <$> s; ReadRes := readRes;
                    WriteRes := writeRes; OutVecs := outVecs;
                    OutStates := outStates |}) = []).
  { intros. repeat (apply Exec_bind_lift_calls; intros). done. }
  destruct (0 <? length readIn)%nat; cbn [invoke mret Exec_ret outcome calls cellOf].
  - destruct (rnn_ApplyBlock (Reader b) readS readIn) as [readRes|]; [|done].
    f_equal. rewrite Exec_bind_calls.
    destruct (0 <? length writeIn)%nat;
      cbn [invoke mret Exec_ret outcome calls cellOf].
    + destruct (rnn_ApplyBlock (Writer b) writeS writeIn); [|done].
      by rewrite Htail.
    + by rewrite Htail.
  - rewrite Exec_bind_calls.
    destruct (0 <? length writeIn)%nat;
      cbn [invoke mret Exec_ret outcome calls cellOf].
    + destruct (rnn_ApplyBlock (Writer b) writeS writeIn); [|done].
      by rewrite Htail.
    + by rewrite Htail.
Qed.

Lemma nextStates_Ok_inv i s ins internalStates out :
  nextStates i s ins internalStates = Ok out →
  length out = length s ∧
  ∀ k x, s !! k = Some x →
    ∃ x', out !! k = Some x' ∧
          internalStates !! (i + k)%nat = Some (State x') ∧
          (Reading x' = true ↔
           Reading x = true ∧
           ∃ v, ins !! (i + k)%nat = Some v ∧ terminatorIsZero v).
Proof.
  revert i out. induction s as [|y s IH]; intros i out.
  - intros [= <-]. split; [done |]. intros k x Hk. by destruct k.
  - cbn [nextStates].
    intros (rd & Hrd & (st & Hst%index_Ok & (rest & Hrest & [= <-])%bind_Ok)%bind_Ok)%bind_Ok.
    destruct (IH _ _ Hrest) as [Hlen Hrec]. split; [cbn; by rewrite Hlen |].
    intros [|k] x Hk.
    + injection Hk as ->. eexists. split; [done |]. cbn.
      rewrite Nat.add_0_r. split; [done |].
      destruct (Reading x) eqn:Hx.
      * apply bind_Ok in Hrd as (v & Hv%index_Ok & (t & Ht%index_Ok & [= <-])%bind_Ok).
        split.
        -- intros Heq. split; [done |]. exists v. split; [done |]. by exists t.
        -- intros [_ (v' & Hv' & t' & Ht' & Heq)]. congruence.
      * injection Hrd as <-. split; [done | intros [[=] _]].
    + destruct (Hrec k x Hk) as (x' & Hout & Hst' & Hiff).
      exists x'. by rewrite <- Nat.add_succ_comm.
Qed.

Lemma nextStates_Ok i s ins internalStates :
  (i + length s ≤ length internalStates)%nat →
  (∀ k x, s !! k = Some x → Reading x = true →
          ∃ v t, ins !! (i + k)%nat = Some v ∧
                 v !! Z.to_nat Terminator = Some t) →
  ∃ out, nextStates i s ins internalStates = Ok out.
Proof.
  revert i. induction s as [|y s IH]; intros i Hlen Hin; [by exists [] |].
  cbn [nextStates length] in *.
  destruct (lookup_lt_is_Some_2 internalStates i) as [st Hst]; [lia |].
  destruct (IH (S i)) as [rest Hrest]; [lia | |].
  { intros k x Hk Hx. rewrite Nat.add_succ_comm. by apply (Hin (S k) x). }
  assert (Hrd : ∃ rd,
    (if Reading y then
       v ← index ins i; t ← index v (Z.to_nat Terminator);
       Ok (PrimFloat.eqb t 0%float)
     else Ok false) = Ok rd).
  { destruct (Reading y) eqn:Hy; [|by eexists].
    destruct (Hin 0%nat y eq_refl Hy) as (v & t & Hv & Ht).
    rewrite Nat.add_0_r in Hv. unfold index. rewrite Hv. cbn. rewrite Ht.
    by eexists. }
  destruct Hrd as [rd ->]. unfold index at 1. rewrite Hst, Hrest.
  by eexists.
Qed.

(** What a returned step was made of. *)
Lemma ApplyBlock_Ok_inv b s ins res :
  outcome (Block_ApplyBlock b s ins) = Ok res →
  let reading := Reading <$> s in
  length ins = length s ∧
  res_Reading res = reading ∧
  partResult b ReaderCell (pick true reading (State <$> s))
    (pick true reading ins) = Ok (ReadRes res) ∧
  partResult b WriterCell (pick false reading (State <$> s))
    (pick false reading ins) = Ok (WriteRes res) ∧
  joinReadWrite reading (Outputs (ReadRes res)) (Outputs (WriteRes res))
    = Ok (OutVecs res) ∧
  ∃ internalStates,
    joinReadWrite reading (States (ReadRes res)) (States (WriteRes res))
      = Ok internalStates ∧
    nextStates 0 s ins internalStates = Ok (OutStates res).
Proof.
  rewrite ApplyBlock_outcome. cbv zeta.
  intros ([readS writeS] & HS & Hk)%bind_Ok.
  apply bind_Ok in Hk as ([readIn writeIn] & HI & Hk).
  apply bind_Ok in Hk as (readRes & Hread & Hk).
  apply bind_Ok in Hk as (writeRes & Hwrite & Hk).
  apply bind_Ok in Hk as (outVecs & Hout & Hk).
  apply bind_Ok in Hk as (internalStates & Hint & Hk).
  apply bind_Ok in Hk as (outStates & Hnext & [= <-]).
  apply splitReadWrite_Ok_inv in HS as (_ & -> & ->).
  apply splitReadWrite_Ok_inv in HI as (Hlen & -> & ->).
  rewrite length_fmap in Hlen. cbn. split_and!; try done. by exists internalStates.
Qed.

(** The step returns when the inputs match the states in number, every
    reading sequence has an input with a Terminator component, and the
    cells return results of the shape of their part. *)
Lemma ApplyBlock_returns b s ins readRes writeRes :
  let reading := Reading <$> s in
  length ins = length s →
  (∀ k x v, s !! k = Some x → Reading x = true → ins !! k = Some v → v ≠ []) →
  partResult b ReaderCell (pick true reading (State <$> s))
    (pick true reading ins) = Ok readRes →
  partResult b WriterCell (pick false reading (State <$> s))
    (pick false reading ins) = Ok writeRes →
  shapeOk (countFlag true reading) readRes →
  shapeOk (countFlag false reading) writeRes →
  ∃ res, outcome (Block_ApplyBlock b s ins) = Ok res ∧
         ReadRes res = readRes ∧ WriteRes res = writeRes.
Proof.
  intros reading Hlen Hin Hread Hwrite [HrO HrS] [HwO HwS].
  destruct (joinReadWrite_Ok reading (Outputs readRes) (Outputs writeRes))
    as [outVecs Hout]; [done.. |].
  destruct (joinReadWrite_Ok reading (States readRes) (States writeRes))
    as [internalStates Hint]; [done.. |].
  destruct (nextStates_Ok 0 s ins internalStates) as [outStates Hnext].
  { apply joinReadWrite_Ok_inv in Hint as [-> _].
    unfold reading. by rewrite length_fmap. }
  { intros k x Hk Hx.
    destruct (lookup_lt_is_Some_2 ins k) as [v Hv].
    { rewrite Hlen. by apply (lookup_lt_Some s k x). }
    specialize (Hin k x v Hk Hx Hv). destruct v as [|t v]; [done |].
    by exists (t :: v), t. }
  eexists. rewrite ApplyBlock_outcome. cbv zeta.
  rewrite (splitReadWrite_Ok _ (State <$> s)) by (by rewrite !length_fmap).
  rewrite result_bind_Ok. cbv beta iota.
  rewrite (splitReadWrite_Ok _ ins) by (by rewrite length_fmap).
  rewrite result_bind_Ok. cbv beta iota.
  fold reading. rewrite Hread, result_bind_Ok, Hwrite, result_bind_Ok.
  rewrite Hout, result_bind_Ok, Hint, result_bind_Ok, Hnext, result_bind_Ok.
  done.
Qed.

(** The phase of every sequence after a returned step. *)
Lemma ApplyBlock_phases b s ins res :
  outcome (Block_ApplyBlock b s ins) = Ok res →
  length (OutStates res) = length s ∧
  ∀ i x, s !! i = Some x →
    ∃ v x', ins !! i = Some v ∧ OutStates res !! i = Some x' ∧
      (Reading x' = true ↔ Reading x = true ∧ terminatorIsZero v).
Proof.
  intros (Hlen & _ & _ & _ & _ & ist & _ & Hnext)%ApplyBlock_Ok_inv.
  destruct (nextStates_Ok_inv _ _ _ _ _ Hnext) as [Hout Hrec].
  split; [done |]. intros i x Hi.
  destruct (lookup_lt_is_Some_2 ins i) as [v Hv].
  { rewrite Hlen. by apply (lookup_lt_Some s i x). }
  destruct (Hrec i x Hi) as (x' & Hx' & _ & Hiff). cbn in Hiff.
  exists v, x'. split_and!; [done.. |]. rewrite Hiff. split.
  - intros [Hx (v' & Hv' & Hz)]. by replace v with v' by congruence.
  - intros [Hx Hz]. eauto.
Qed.

(** C1. After a step that returns, sequence [i] is reading if and only if
    it was reading and the Terminator component of its input is zero; in
    every other case it is writing. In particular a reading sequence whose
    input has a non-zero Terminator component is writing after the step. *)
Theorem ApplyBlock_next_phase b s ins res :
  outcome (Block_ApplyBlock b s ins) = Ok res →
  length (OutStates res) = length s ∧
  ∀ i x, s !! i = Some x →
    ∃ v x', ins !! i = Some v ∧ OutStates res !! i = Some x' ∧
      (Reading x' = true ↔ Reading x = true ∧ terminatorIsZero v) ∧
      (Reading x' = false ↔ ¬ (Reading x = true ∧ terminatorIsZero v)) ∧
      (Reading x = true →
       (∃ t, v !! Z.to_nat Terminator = Some t ∧
             PrimFloat.eqb t 0%float = false) →
       Reading x' = false).
Proof.
  intros [Hlen Hrec]%ApplyBlock_phases. split; [done |].
  intros i x Hi. destruct (Hrec i x Hi) as (v & x' & Hv & Hx' & Hiff).
  exists v, x'. split_and!; [done.. | |].
  - rewrite <- Hiff. by destruct (Reading x').
  - intros Hx (t & Ht & Hne). destruct (Reading x') eqn:Hr; [|done].
    destruct (proj1 Hiff eq_refl) as [_ (t' & Ht' & Heq)]. congruence.
Qed.

(** ** Runs of the block *)

Lemma ApplyBlock_keeps_writing b s ins res i x :
  outcome (Block_ApplyBlock b s ins) = Ok res →
  s !! i = Some x → Reading x = false →
  ∃ x', OutStates res !! i = Some x' ∧ Reading x' = false.
Proof.
  intros [_ Hrec]%ApplyBlock_phases Hi Hx.
  destruct (Hrec i x Hi) as (v & x' & _ & Hx' & Hiff).
  exists x'. split; [done |]. destruct (Reading x') eqn:Hr; [|done].
  destruct (proj1 Hiff eq_refl) as [Hr' _]. congruence.
Qed.

Lemma run_head b s inputs trace :
  run b s inputs = Ok trace → trace !! 0%nat = Some s.
Proof.
  destruct inputs as [|ins inputs]; cbn.
  - by intros [= <-].
  - by intros (res & _ & (tr & _ & [= <-])%bind_Ok)%bind_Ok.
Qed.

Lemma run_length b s inputs trace :
  run b s inputs = Ok trace → length trace = S (length inputs).
Proof.
  revert s trace. induction inputs as [|ins inputs IH]; intros s trace; cbn.
  - by intros [= <-].
  - intros (res & _ & (tr & Htr & [= <-])%bind_Ok)%bind_Ok.
    cbn. by rewrite (IH _ _ Htr).
Qed.

Lemma run_monotonic b s inputs trace :
  run b s inputs = Ok trace →
  ∀ t t' i st st' x,
    (t ≤ t')%nat → trace !! t = Some st → trace !! t' = Some st' →
    st !! i = Some x → Reading x = false →
    ∃ x', st' !! i = Some x' ∧ Reading x' = false.
Proof.
  revert s trace. induction inputs as [|ins inputs IH]; intros s trace; cbn.
  - intros [= <-] t t' i st st' x Hle Ht Ht' Hi Hx.
    destruct t' as [|t']; [|done]. destruct t as [|t]; [|lia].
    cbn in Ht, Ht'. exists x. split; congruence.
  - intros (res & Hres & (tr & Htr & [= <-])%bind_Ok)%bind_Ok.
    intros t t' i st st' x Hle Ht Ht' Hi Hx.
    destruct t' as [|t'].
    { destruct t as [|t]; [|lia]. cbn in Ht, Ht'. exists x. split; congruence. }
    cbn in Ht'. destruct t as [|t].
    + injection Ht as <-.
      destruct (ApplyBlock_keeps_writing _ _ _ _ _ _ Hres Hi Hx)
        as (y & Hy & Hyw).
      apply (IH _ _ Htr 0%nat t' i (OutStates res) st' y);
        [lia | by apply (run_head b _ inputs) | done..].
    + cbn in Ht. apply (IH _ _ Htr t t' i st st' x); [lia | done..].
Qed.

(** C3. In a run of steps from the start state, a sequence that is writing
    before some step is writing before every later step and after the
    last one, whatever inputs follow. *)
Theorem phase_monotonic b (n : nat) (inputs : list (list Vector)) trace :
  run b (replicate n (Block_StartState b)) inputs = Ok trace →
  ∀ t t' i st st' x,
    (t ≤ t')%nat → trace !! t = Some st → trace !! t' = Some st' →
    st !! i = Some x → Reading x = false →
    ∃ x', st' !! i = Some x' ∧ Reading x' = false.
Proof. apply run_monotonic. Qed.

End BlockFacts.

(** ** Empty parts and the degenerate batches *)

Section Degenerate.
Context `{Carrier}.
Implicit Types (b : Block) (s : list blockState) (ins : list Vector).

Lemma Forall_Reading_fmap s r :
  Forall (λ x, Reading x = r) s → Forall (λ f, f = r) (Reading <$> s).
Proof. intros Hs. by apply Forall_fmap. Qed.

(** With no sequence in phase [negb r], the part of phase [negb r] of any
    batch-indexed list is empty and the part of phase [r] is the list. *)
Lemma pick_phase {T} s (items : list T) r :
  length items = length s →
  Forall (λ x, Reading x = r) s →
  pick r (Reading <$> s) items = items ∧
  pick (negb r) (Reading <$> s) items = [].
Proof.
  intros Hlen Hs. apply pick_all; [by rewrite length_fmap |].
  by apply Forall_Reading_fmap.
Qed.

Lemma partCalls_callee c states ins (k : Call) :
  k ∈ partCalls c states ins → callee k = c.
Proof.
  unfold partCalls. destruct (0 <? length ins)%nat.
  - by intros ->%list_elem_of_singleton.
  - by intros ?%elem_of_nil.
Qed.

(** The cell of phase [negb r] is not called on a batch whose sequences
    are all in phase [r]. *)
Lemma ApplyBlock_calls_phase b s ins (reading : bool) (k : Call) :
  Forall (λ x, Reading x = reading) s →
  k ∈ calls (Block_ApplyBlock b s ins) →
  callee k = if reading then ReaderCell else WriterCell.
Proof.
  intros Hs. rewrite ApplyBlock_calls. cbv zeta.
  destruct (splitReadWrite _ (State <$> s)) as [[readS writeS]|] eqn:HS;
    [|by intros ?%elem_of_nil].
  destruct (splitReadWrite _ ins) as [[readIn writeIn]|] eqn:HI;
    [|by intros ?%elem_of_nil].
  apply splitReadWrite_Ok_inv in HI as (Hlen & -> & ->).
  rewrite length_fmap in Hlen.
  destruct (pick_phase s ins reading) as [Hall Hnone]; [done.. |].
  destruct reading; cbn [negb] in Hnone; rewrite Hnone.
  - intros [Hk|Hk]%elem_of_app; [by apply partCalls_callee in Hk |].
    destruct (partResult _ _ _ _); by apply elem_of_nil in Hk.
  - intros [Hk|Hk]%elem_of_app; [by apply elem_of_nil in Hk |].
    destruct (partResult _ _ _ _); [|by apply elem_of_nil in Hk].
    by apply partCalls_callee in Hk.
Qed.

Lemma ApplyBlock_empty_part b s ins res (reading : bool) :
  Forall (λ x, Reading x = reading) s →
  outcome (Block_ApplyBlock b s ins) = Ok res →
  (if reading then WriteRes res else ReadRes res) = emptyResult.
Proof.
  intros Hs (Hlen & _ & Hread & Hwrite & _)%ApplyBlock_Ok_inv.
  destruct (pick_phase s ins reading) as [_ Hnone]; [done.. |].
  destruct reading; cbn [negb] in Hnone.
  - rewrite Hnone in Hwrite. by injection Hwrite.
  - rewrite Hnone in Hread. by injection Hread.
Qed.

(** *** The forward-mode step *)

Implicit Types (rs : list blockRState) (rins : list autofunc_RResult).

Lemma ApplyBlockR_outcome b rv rs rins :
  outcome (Block_ApplyBlockR b rv rs rins) =
    (let reading := ReadingR <$> rs in
     '(readS, writeS) ← splitReadWrite reading (StateR <$> rs);
     '(readIn, writeIn) ← splitReadWrite reading rins;
     readRes ← partRResult b ReaderCell rv readS readIn;
     writeRes ← partRResult b WriterCell rv writeS writeIn;
     outVecs ← joinReadWrite reading (R_Outputs readRes) (R_Outputs writeRes);
     rOutVecs ← joinReadWrite reading (ROutputs readRes) (ROutputs writeRes);
     internalStates ← joinReadWrite reading (RStates readRes) (RStates writeRes);
     outStates ← nextRStates 0 rs rins internalStates;
     Ok {| resR_Reading := reading; ReadResR := readRes; WriteResR := writeRes;
           OutVecsR := outVecs; ROutVecs := rOutVecs;
           OutStatesR := outStates |}).
Proof.
  unfold Block_ApplyBlockR, partRResult. cbv zeta.
  exec_outcome; try done; by case_match.
Qed.

Lemma ApplyBlockR_calls b rv rs rins :
  calls (Block_ApplyBlockR b rv rs rins) =
    (let reading := ReadingR <$> rs in
     match splitReadWrite reading (StateR <$> rs),
           splitReadWrite reading rins with
     | Ok (readS, writeS), Ok (readIn, writeIn) =>
         partRCalls ReaderCell rv readS readIn ++
         match partRResult b ReaderCell rv readS readIn with
         | Ok _ => partRCalls WriterCell rv writeS writeIn
         | Panic _ => []
         end
     | _, _ => []
     end).
Proof.
  unfold Block_ApplyBlockR, partRResult, partRCalls. cbv zeta.
  rewrite Exec_bind_calls. cbn [lift outcome calls].
  destruct (splitReadWrite _ (StateR <$> rs)) as [[readS writeS]|]; [|done].
  rewrite app_nil_l, Exec_bind_calls. cbn [lift outcome calls].
  destruct (splitReadWrite _ rins) as [[readIn writeIn]|]; [|done].
  rewrite app_nil_l, Exec_bind_calls.
  assert (Htail : ∀ readRes writeRes,
    calls (lift (joinReadWrite (ReadingR <$> rs) (R_Outputs readRes)
                   (R_Outputs writeRes))
      ≫= λ outVecs,
        lift (joinReadWrite (ReadingR <$> rs) (ROutputs readRes)
                (ROutputs writeRes))
        ≫= λ rOutVecs,
          lift (joinReadWrite (ReadingR <$> rs) (RStates readRes)
                  (RStates writeRes))
          ≫= λ internalStates,
            lift (nextRStates 0 rs rins internalStates)
            ≫= λ outStates,
              mret {| resR_Reading := ReadingR <$> rs; ReadResR := readRes;
                      WriteResR := writeRes; OutVecsR := outVecs;
                      ROutVecs := rOutVecs; OutStatesR := outStates |}) = []).
  { intros. repeat (apply Exec_bind_lift_calls; intros). done. }
  destruct (0 <? length readIn)%nat;
    cbn [invoke mret Exec_ret outcome calls cellOf].
  - destruct (rnn_ApplyBlockR (Reader b) rv readS readIn) as [readRes|]; [|done].
    f_equal. rewrite Exec_bind_calls.
    destruct (0 <? length writeIn)%nat;
      cbn [invoke mret Exec_ret outcome calls cellOf].
    + destruct (rnn_ApplyBlockR (Writer b) rv writeS writeIn); [|done].
      by rewrite Htail.
    + by rewrite Htail.
  - rewrite Exec_bind_calls.
    destruct (0 <? length writeIn)%nat;
      cbn [invoke mret Exec_ret outcome calls cellOf].
    + destruct (rnn_ApplyBlockR (Writer b) rv writeS writeIn); [|done].
      by rewrite Htail.
    + by rewrite Htail.
Qed.

Lemma pick_phaseR {T} rs (items : list T) r :
  length items = length rs →
  Forall (λ x, ReadingR x = r) rs →
  pick r (ReadingR <$> rs) items = items ∧
  pick (negb r) (ReadingR <$> rs) items = [].
Proof.
  intros Hlen Hs. apply pick_all; [by rewrite length_fmap |].
  by apply Forall_fmap.
Qed.

Lemma partRCalls_callee c rv states rins (k : Call) :
  k ∈ partRCalls c rv states rins → callee k = c.
Proof.
  unfold partRCalls. destruct (0 <? length rins)%nat.
  - by intros ->%list_elem_of_singleton.
  - by intros ?%elem_of_nil.
Qed.

Lemma ApplyBlockR_calls_phase b rv rs rins (reading : bool) (k : Call) :
  Forall (λ x, ReadingR x = reading) rs →
  k ∈ calls (Block_ApplyBlockR b rv rs rins) →
  callee k = if reading then ReaderCell else WriterCell.
Proof.
  intros Hs. rewrite ApplyBlockR_calls. cbv zeta.
  destruct (splitReadWrite _ (StateR <$> rs)) as [[readS writeS]|] eqn:HS;
    [|by intros ?%elem_of_nil].
  destruct (splitReadWrite _ rins) as [[readIn writeIn]|] eqn:HI;
    [|by intros ?%elem_of_nil].
  apply splitReadWrite_Ok_inv in HI as (Hlen & -> & ->).
  rewrite length_fmap in Hlen.
  destruct (pick_phaseR rs rins reading) as [Hall Hnone]; [done.. |].
  destruct reading; cbn [negb] in Hnone; rewrite Hnone.
  - intros [Hk|Hk]%elem_of_app; [by apply partRCalls_callee in Hk |].
    destruct (partRResult _ _ _ _ _); by apply elem_of_nil in Hk.
  - intros [Hk|Hk]%elem_of_app; [by apply elem_of_nil in Hk |].
    destruct (partRResult _ _ _ _ _); [|by apply elem_of_nil in Hk].
    by apply partRCalls_callee in Hk.
Qed.

Lemma ApplyBlockR_empty_part b rv rs rins res (reading : bool) :
  Forall (λ x, ReadingR x = reading) rs →
  outcome (Block_ApplyBlockR b rv rs rins) = Ok res →
  (if reading then WriteResR res else ReadResR res) = emptyRResult.
Proof.
  intros Hs. rewrite ApplyBlockR_outcome. cbv zeta.
  intros ([readS writeS] & HS & Hk)%bind_Ok.
  apply bind_Ok in Hk as ([readIn writeIn] & HI & Hk).
  apply bind_Ok in Hk as (readRes & Hread & Hk).
  apply bind_Ok in Hk as (writeRes & Hwrite & Hk).
  apply bind_Ok in Hk as (outVecs & _ & Hk).
  apply bind_Ok in Hk as (rOutVecs & _ & Hk).
  apply bind_Ok in Hk as (internalStates & _ & Hk).
  apply bind_Ok in Hk as (outStates & _ & [= <-]).
  apply splitReadWrite_Ok_inv in HI as (Hlen & -> & ->).
  rewrite length_fmap in Hlen.
  destruct (pick_phaseR rs rins reading) as [_ Hnone]; [done.. |].
  destruct reading; cbn [negb] in Hnone; cbn.
  - rewrite Hnone in Hwrite. by injection Hwrite.
  - rewrite Hnone in Hread. by injection Hread.
Qed.

(** With the reading part empty, the backward pass of the step is the
    writer's alone (and the other way round): the empty result adds
    nothing to the gradient and hands no state gradient down. *)
Lemma PropagateGradient_one_cell b s ins res (reading : bool) u sg g down g' :
  Forall (λ x, Reading x = reading) s →
  outcome (Block_ApplyBlock b s ins) = Ok res →
  blockResult_PropagateGradient res u sg g = Ok (down, g') →
  PropagateGradient (if reading then ReadRes res else WriteRes res) u sg g
    = Ok (down, g').
Proof.
  intros Hs Hres Hpg.
  pose proof (ApplyBlock_empty_part _ _ _ _ _ Hs Hres) as Hempty.
  apply ApplyBlock_Ok_inv in Hres as (Hlen & Hreading & _).
  unfold blockResult_PropagateGradient in Hpg. rewrite Hreading in Hpg.
  apply bind_Ok in Hpg as ([readU writeU] & HU & Hpg).
  apply bind_Ok in Hpg as ([readS writeS] & HS & Hpg).
  apply bind_Ok in Hpg as ([readDown g1] & Hrd & Hpg).
  apply bind_Ok in Hpg as ([writeDown g2] & Hwd & Hpg).
  apply bind_Ok in Hpg as (down' & Hjoin & [= <- <-]).
  apply splitReadWrite_Ok_inv in HU as (HlenU & -> & ->).
  apply splitReadWrite_Ok_inv in HS as (HlenS & -> & ->).
  rewrite length_fmap in HlenU, HlenS.
  destruct (pick_phase s u reading) as [HUall HUnone]; [done.. |].
  destruct (pick_phase s sg reading) as [HSall HSnone]; [done.. |].
  apply joinReadWrite_Ok_inv in Hjoin as (HlenD & -> & ->).
  rewrite length_fmap in HlenD.
  destruct (pick_phase s down' reading) as [HDall HDnone]; [done.. |].
  destruct reading; cbn [negb] in *.
  - rewrite Hempty in Hwd. injection Hwd as _ <-.
    by rewrite HUall, HSall, HDall in Hrd.
  - rewrite Hempty in Hrd. injection Hrd as _ <-.
    by rewrite HUall, HSall, HDall in Hwd.
Qed.

(** C5. When no sequence of the batch is reading, neither [ApplyBlock] nor
    [ApplyBlockR] calls the reader: the reader's result is the empty
    result; symmetrically for the writer when no sequence is writing. The
    empty result has no outputs and no states, and its backward pass hands
    down no state gradient and leaves the gradient as it is, so the
    backward pass of such a step is that of the one cell that ran. *)
Theorem empty_part_not_invoked b :
  (∀ s ins (reading : bool),
     Forall (λ x, Reading x = reading) s →
     (∀ k, k ∈ calls (Block_ApplyBlock b s ins) →
           callee k = if reading then ReaderCell else WriterCell) ∧
     (∀ res, outcome (Block_ApplyBlock b s ins) = Ok res →
        (if reading then WriteRes res else ReadRes res) = emptyResult ∧
        ∀ u sg g down g',
          blockResult_PropagateGradient res u sg g = Ok (down, g') →
          PropagateGradient (if reading then ReadRes res else WriteRes res)
            u sg g = Ok (down, g'))) ∧
  (∀ rv rs rins (reading : bool),
     Forall (λ x, ReadingR x = reading) rs →
     (∀ k, k ∈ calls (Block_ApplyBlockR b rv rs rins) →
           callee k = if reading then ReaderCell else WriterCell) ∧
     (∀ res, outcome (Block_ApplyBlockR b rv rs rins) = Ok res →
        (if reading then WriteResR res else ReadResR res) = emptyRResult)) ∧
  (Outputs emptyResult = [] ∧ States emptyResult = [] ∧
   ∀ u sg g, PropagateGradient emptyResult u sg g = Ok ([], g)) ∧
  (R_Outputs emptyRResult = [] ∧ ROutputs emptyRResult = [] ∧
   RStates emptyRResult = [] ∧
   ∀ u uR sg rg g,
     PropagateRGradient emptyRResult u uR sg rg g = Ok ([], (rg, g))).
Proof.
  split_and!; try done.
  - intros s ins reading Hs. split.
    + intros k. by apply ApplyBlock_calls_phase.
    + intros res Hres. split; [by eapply ApplyBlock_empty_part |].
      intros u sg g down g'. by eapply PropagateGradient_one_cell.
  - intros rv rs rins reading Hs. split.
    + intros k. by apply ApplyBlockR_calls_phase.
    + intros res. by apply ApplyBlockR_empty_part.
Qed.

(** *** All sequences reading *)

Lemma countFlag_all (r : bool) (reading : list bool) :
  Forall (λ f, f = r) reading →
  countFlag r reading = length reading ∧ countFlag (negb r) reading = 0%nat.
Proof.
  intros Hall. pose proof (pick_all r reading reading eq_refl Hall) as [H1 H2].
  rewrite <- !(length_pick _ reading reading) by done. by rewrite H1, H2.
Qed.

(** C6. On a batch whose sequences are all reading the writer is never
    called. A step that returns on a non-empty such batch made exactly one
    call, the reader's on the whole batch in batch order, and its outputs
    are the reader's outputs. Conversely, if the reader alone returns a
    well-shaped result on the whole batch, the step returns and its
    outputs are those of the reader. *)
Theorem all_reading_degeneracy b s ins :
  Forall (λ x, Reading x = true) s →
  (∀ k, k ∈ calls (Block_ApplyBlock b s ins) → callee k ≠ WriterCell) ∧
  (∀ res, outcome (Block_ApplyBlock b s ins) = Ok res → s ≠ [] →
     ∃ rres, rnn_ApplyBlock (Reader b) (State <$> s) ins = Ok rres ∧
             blockResult_Outputs res = Outputs rres ∧
             calls (Block_ApplyBlock b s ins) =
               [CallApplyBlock ReaderCell (State <$> s) ins]) ∧
  (∀ rres, length ins = length s → Forall (λ v, v ≠ []) ins →
     rnn_ApplyBlock (Reader b) (State <$> s) ins = Ok rres →
     shapeOk (length s) rres →
     ∃ res, outcome (Block_ApplyBlock b s ins) = Ok res ∧
            blockResult_Outputs res = Outputs rres).
Proof.
  intros Hs. split_and!.
  - intros k Hk. by rewrite (ApplyBlock_calls_phase b s ins true k Hs Hk).
  - intros res Hres Hne.
    pose proof (ApplyBlock_empty_part _ _ _ _ _ Hs Hres) as Hempty.
    cbn in Hempty.
    pose proof Hres as (Hlen & _ & Hread & _ & Hout & _)%ApplyBlock_Ok_inv.
    destruct (pick_phase s ins true) as [HIall HInone]; [done.. |].
    destruct (pick_phase s (State <$> s) true) as [HSall HSnone];
      [by rewrite length_fmap | done |].
    cbn [negb] in *. rewrite HIall, HSall in Hread.
    assert (Hpos : (0 <? length ins)%nat = true).
    { apply Nat.ltb_lt. rewrite Hlen. destruct s; [done | cbn; lia]. }
    unfold partResult in Hread. rewrite Hpos in Hread. cbn in Hread.
    exists (ReadRes res). split_and!; [done | |].
    + apply joinReadWrite_Ok_inv in Hout as (HlenO & HO & _).
      rewrite length_fmap in HlenO.
      destruct (pick_phase s (OutVecs res) true) as [HOall _]; [done.. |].
      unfold blockResult_Outputs. congruence.
    + rewrite ApplyBlock_calls. cbv zeta.
      rewrite (splitReadWrite_Ok _ (State <$> s)) by (by rewrite !length_fmap).
      rewrite (splitReadWrite_Ok _ ins) by (by rewrite length_fmap).
      rewrite HIall, HSall, HInone. unfold partResult, partCalls.
      rewrite Hpos. cbn [cellOf]. rewrite Hread. done.
  - intros rres Hlen Hins Hrres [HshO HshS].
    destruct (pick_phase s ins true) as [HIall HInone]; [done.. |].
    destruct (pick_phase s (State <$> s) true) as [HSall HSnone];
      [by rewrite length_fmap | done |].
    destruct (countFlag_all true (Reading <$> s)) as [Hct Hcf];
      [by apply Forall_Reading_fmap |].
    rewrite length_fmap in Hct. cbn [negb] in *.
    destruct (ApplyBlock_returns b s ins
                (if (0 <? length ins)%nat then rres else emptyResult)
                emptyResult) as (res & Hres & Hrd & _).
    + done.
    + intros k x v _ _ Hv. rewrite Forall_forall in Hins.
      apply Hins. by eapply list_elem_of_lookup_2.
    + rewrite HIall, HSall. unfold partResult. cbn [cellOf].
      by destruct (0 <? length ins)%nat.
    + by rewrite HInone.
    + rewrite Hct. destruct (0 <? length ins)%nat eqn:Hpos; [done |].
      apply Nat.ltb_ge in Hpos. split; cbn; lia.
    + by rewrite Hcf.
    + exists res. split; [done |].
      apply ApplyBlock_Ok_inv in Hres as (_ & _ & _ & _ & Hout & _).
      apply joinReadWrite_Ok_inv in Hout as (HlenO & HO & _).
      rewrite length_fmap in HlenO.
      destruct (pick_phase s (OutVecs res) true) as [HOall _]; [done.. |].
      unfold blockResult_Outputs. rewrite <- HOall, <- HO, Hrd.
      destruct (0 <? length ins)%nat eqn:Hpos; [done |].
      apply Nat.ltb_ge in Hpos. cbn.
      symmetry. apply length_zero_iff_nil. lia.
Qed.

End Degenerate.

(** ** Gradient routing *)

Lemma countFlag_cons (r f : bool) (reading : list bool) :
  countFlag r (f :: reading) =
    if Bool.eqb f r then S (countFlag r reading) else countFlag r reading.
Proof.
  unfold countFlag. rewrite filter_cons. by destruct f, r.
Qed.

(** The item of sequence [i] sits in the part of its phase at the rank of
    [i] among the sequences of that phase. *)
Lemma pick_lookup {T} (r : bool) (reading : list bool) (items : list T)
    (i : nat) (d : T) :
  length reading = length items →
  reading !! i = Some r → items !! i = Some d →
  pick r reading items !! countFlag r (take i reading) = Some d.
Proof.
  revert items i. induction reading as [|f reading IH];
    intros [|x items] i Hlen Hf Hd; try done.
  destruct i as [|i].
  - injection Hf as ->. injection Hd as ->. cbn. by rewrite Bool.eqb_reflx.
  - cbn in Hf, Hd. cbn [take pick]. rewrite countFlag_cons.
    injection Hlen as Hlen.
    destruct (Bool.eqb f r); cbn; by apply IH.
Qed.

Section Gradient.
Context `{Carrier}.
Implicit Types (b : Block) (s : list blockState) (ins : list Vector).

(** C7. The state gradients that [PropagateGradient] returns for a step
    are as many as the states the step was applied to, and they are in
    batch order: splitting them by the step's flags gives back the
    reader's and the writer's state gradients, so the entry of sequence
    [i] is the gradient its own cell returned for it. The backward pass
    returns whenever it is given one output gradient and one state
    gradient per sequence and the two cells' backward passes keep the
    shape of their part. *)
Theorem gradient_shape b s ins res u sg g :
  outcome (Block_ApplyBlock b s ins) = Ok res →
  (∀ down g',
     blockResult_PropagateGradient res u sg g = Ok (down, g') →
     length down = length s ∧
     ∃ readDown writeDown g1,
       PropagateGradient (ReadRes res) (pick true (Reading <$> s) u)
         (pick true (Reading <$> s) sg) g = Ok (readDown, g1) ∧
       PropagateGradient (WriteRes res) (pick false (Reading <$> s) u)
         (pick false (Reading <$> s) sg) g1 = Ok (writeDown, g') ∧
       splitReadWrite (Reading <$> s) down = Ok (readDown, writeDown) ∧
       ∀ i x, s !! i = Some x →
         ∃ d, down !! i = Some d ∧
              (if Reading x then readDown else writeDown)
                !! countFlag (Reading x) (take i (Reading <$> s)) = Some d) ∧
  (length u = length s → length sg = length s →
   gradOk (ReadRes res) → gradOk (WriteRes res) →
   ∃ down g',
     blockResult_PropagateGradient res u sg g = Ok (down, g') ∧
     length down = length s).
Proof.
  intros (Hlen & Hreading & _ & _ & _ & ist & Hist & _)%ApplyBlock_Ok_inv.
  unfold blockResult_PropagateGradient. rewrite Hreading. split.
  - intros down g' Hpg.
    apply bind_Ok in Hpg as ([readU writeU] & HU & Hpg).
    apply bind_Ok in Hpg as ([readS writeS] & HS & Hpg).
    apply bind_Ok in Hpg as ([readDown g1] & Hrd & Hpg).
    apply bind_Ok in Hpg as ([writeDown g2] & Hwd & Hpg).
    apply bind_Ok in Hpg as (down' & Hjoin & [= <- <-]).
    apply splitReadWrite_Ok_inv in HU as (_ & -> & ->).
    apply splitReadWrite_Ok_inv in HS as (_ & -> & ->).
    apply joinReadWrite_Ok_inv in Hjoin as (HlenD & HrD & HwD).
    rewrite length_fmap in HlenD. split; [done |].
    exists readDown, writeDown, g1. split_and!; [done.. | |].
    + rewrite HrD, HwD. apply splitReadWrite_Ok. by rewrite length_fmap.
    + intros i x Hi.
      destruct (lookup_lt_is_Some_2 down' i) as [d Hd].
      { rewrite HlenD. by apply (lookup_lt_Some s i x). }
      exists d. split; [done |].
      assert (Hf : (Reading <$> s) !! i = Some (Reading x))
        by (by rewrite list_lookup_fmap, Hi).
      pose proof (pick_lookup (Reading x) (Reading <$> s) down' i d) as Hpick.
      rewrite length_fmap in Hpick. specialize (Hpick (eq_sym HlenD) Hf Hd).
      destruct (Reading x); congruence.
  - intros HlenU HlenS Hgr Hgw.
    apply joinReadWrite_length in Hist as [HlenR HlenW].
    rewrite (splitReadWrite_Ok _ u) by (by rewrite length_fmap).
    rewrite result_bind_Ok. cbv beta iota.
    rewrite (splitReadWrite_Ok _ sg) by (by rewrite length_fmap).
    rewrite result_bind_Ok. cbv beta iota.
    destruct (Hgr (pick true (Reading <$> s) u) (pick true (Reading <$> s) sg) g)
      as (readDown & g1 & -> & HlenRD);
      [rewrite length_pick by (by rewrite length_fmap); congruence.. |].
    rewrite result_bind_Ok. cbv beta iota.
    destruct (Hgw (pick false (Reading <$> s) u) (pick false (Reading <$> s) sg) g1)
      as (writeDown & g2 & -> & HlenWD);
      [rewrite length_pick by (by rewrite length_fmap); congruence.. |].
    rewrite result_bind_Ok. cbv beta iota.
    destruct (joinReadWrite_Ok (Reading <$> s) readDown writeDown)
      as [down Hdown]; [congruence.. |].
    rewrite Hdown, result_bind_Ok. exists down, g2. split; [done |].
    apply joinReadWrite_Ok_inv in Hdown as [-> _]. by rewrite length_fmap.
Qed.

End Gradient.

(** ** The query driver *)

Section QueryFacts.
Context `{Carrier}.
Implicit Types (b : Block) (r : Runner) (q : list rune).

(** One iteration of the second loop of [Query]. *)
Lemma decodeLoop_step r lastOut res :
  decodeLoop r lastOut res =
    ('(sym, r') ← decodeStep r lastOut;
     if (sym =? 0) || (Z.of_nat (length res) >=? maxResponseLen) then Ok res
     else decodeLoop r' sym (res ++ string_of_rune sym)).
Proof.
  unfold decodeStep.
  funelim (decodeLoop r lastOut res).
  - by rewrite Heq.
  - rewrite Heq0, result_bind_Ok. cbv beta. by rewrite Heq.
  - rewrite Heq1, result_bind_Ok. cbv beta.
    rewrite Heq0, !result_bind_Ok. cbv beta iota. rewrite Heq. cbn [snd].
    by rewrite e.
  - rewrite Heq1, result_bind_Ok. cbv beta.
    rewrite Heq0, !result_bind_Ok. cbv beta iota. rewrite Heq. cbn [snd].
    by rewrite Hgo.
Qed.

Lemma string_of_rune_inRange (x : rune) :
  inRange x → string_of_rune x = [x].
Proof.
  unfold inRange, CharCount, string_of_rune, validRune. intros Hx.
  repeat case_match; try done; lia.
Qed.

Lemma decodeStep_inRange r lastOut sym r' :
  decodeStep r lastOut = Ok (sym, r') → inRange lastOut.
Proof.
  unfold decodeStep. intros (v & Hv & _)%bind_Ok.
  destruct (decide (inRange lastOut)) as [|Hout]; [done |].
  by rewrite oneHotVector_out_of_range in Hv.
Qed.

(** What the second loop returns, in terms of the symbols decoded round
    after round: it appends the symbols before the first Terminator, or
    before the symbol decoded when [res] has reached the cap. *)
Lemma decodeLoop_spec r lastOut res out :
  decodeLoop r lastOut res = Ok out →
  (length res ≤ Z.to_nat maxResponseLen)%nat →
  ∃ syms last,
    decoded (S (length syms)) r lastOut = Ok (syms ++ [last]) ∧
    Forall (λ c, c ≠ Terminator ∧ inRange c) syms ∧
    (last = Terminator ∨ length out = Z.to_nat maxResponseLen) ∧
    out = res ++ mjoin (string_of_rune <$> syms) ∧
    out = res ++ syms ∧
    (length out ≤ Z.to_nat maxResponseLen)%nat.
Proof.
  funelim (decodeLoop r lastOut res); try discriminate.
  - intros [= <-] Hcap. clear H0 Heqcall.
    exists [], (rune_of_int (Z.of_nat nextIdx)).
    cbn [length app decoded]. unfold decodeStep.
    rewrite Heq1, result_bind_Ok. cbv beta.
    rewrite Heq0, !result_bind_Ok. cbv beta iota. rewrite Heq. cbn [snd].
    split_and!; [done | done | | by rewrite app_nil_r.. | done].
    apply orb_true_iff in e as [Hz|Hlen]; [left | right].
    + unfold Terminator. lia.
    + unfold maxResponseLen in *. lia.
  - intros Hout Hcap. clear H1 Heqcall.
    set (sym := rune_of_int (Z.of_nat nextIdx)) in *.
    apply orb_false_iff in Hgo as [Hnz Hlen].
    assert (Hsym : inRange sym).
    { rewrite decodeLoop_step in Hout.
      apply bind_Ok in Hout as ([sym' r''] & Hstep & _).
      by apply decodeStep_inRange in Hstep. }
    rewrite (string_of_rune_inRange sym Hsym) in *.
    destruct (H0 out Hout) as (syms & last & Hdec & Hall & Hend & Ho1 & Ho2 & Hle).
    { rewrite length_app. cbn. unfold maxResponseLen in *. lia. }
    exists (sym :: syms), last. split_and!.
    + change (decoded (S (length (sym :: syms))) r lastOut)
        with ('(sym, r) ← decodeStep r lastOut;
              syms ← decoded (S (length syms)) r sym; Ok (sym :: syms)).
      unfold decodeStep at 1.
      rewrite Heq1, result_bind_Ok. cbv beta.
      rewrite Heq0, !result_bind_Ok. cbv beta iota. rewrite Heq. cbn [snd].
      fold sym. by rewrite Hdec.
    + constructor; [|done]. split; [|done]. unfold Terminator. lia.
    + done.
    + cbn. rewrite (string_of_rune_inRange sym Hsym).
      by rewrite Ho1, <- app_assoc.
    + by rewrite Ho2, <- app_assoc.
    + done.
Qed.

(** The guard of the first loop passes over a rune [x] with
    [x < 0 || x > 128]. *)
Lemma feedQuery_skip r (x : rune) q :
  x < 0 ∨ x > 128 → feedQuery r (x :: q) = feedQuery r q.
Proof.
  intros Hx. cbn [feedQuery].
  destruct ((x <? 0) || (x >? 128)) eqn:Hguard; [done |].
  apply orb_false_iff in Hguard as [? ?]. lia.
Qed.

(** C4. The guard of [Query] skips the runes below 0 and above 128, but
    not the rune 128, which lies outside [0, CharCount): that rune reaches
    the one-hot encoder, and a query that starts with it panics there. *)
Theorem Query_rune_128_panics b q :
  ¬ inRange 128 ∧
  Block_Query b (128 :: q) = Panic (RuneOutOfRange 128) ∧
  (∀ r (x : rune) q', ¬ inRange x → x ≠ 128 →
     feedQuery r (x :: q') = feedQuery r q').
Proof.
  split_and!.
  - unfold inRange, CharCount. lia.
  - done.
  - intros r x q' Hx Hne. apply feedQuery_skip.
    unfold inRange, CharCount in Hx. lia.
Qed.

(** C9. A query that returns has fed the query runes and one Terminator
    vector, then decoded symbols round after round, each round's input
    being the symbol decoded before (the Terminator at first). It returns
    the symbols decoded before the first Terminator, or the first 1000 of
    them when no Terminator came until then, the symbol that ended the loop
    left out; the returned string is never longer than 1000. *)
Theorem Query_decodes b q out :
  Block_Query b q = Ok out →
  ∃ r1 vT v0 r0 syms last,
    feedQuery {| Runner_Block := b; currentState := None |} q = Ok r1 ∧
    oneHotVector Terminator = Ok vT ∧
    Runner_StepTime r1 vT = Ok (v0, r0) ∧
    decoded (S (length syms)) r0 Terminator = Ok (syms ++ [last]) ∧
    Forall (λ c, c ≠ Terminator) syms ∧
    (last = Terminator ∨ length syms = Z.to_nat maxResponseLen) ∧
    out = mjoin (string_of_rune <$> syms) ∧
    out = syms ∧
    (length out ≤ Z.to_nat maxResponseLen)%nat.
Proof.
  unfold Block_Query.
  intros (r1 & Hfeed & (vT & HvT & ([v0 r0] & Hstep & Hloop)%bind_Ok)%bind_Ok)%bind_Ok.
  destruct (decodeLoop_spec _ _ _ _ Hloop)
    as (syms & last & Hdec & Hall & Hend & Ho1 & Ho2 & Hle); [cbn; lia |].
  cbn [app] in Ho1, Ho2.
  exists r1, vT, v0, r0, syms, last. split_and!; try done.
  - eapply Forall_impl; [exact Hall |]. by intros c [? _].
  - by rewrite <- Ho2.
Qed.

End QueryFacts.

(** ** The theorems on the stub block *)

Section OnStubs.
#[local] Existing Instance stubCarrier.

Lemma ApplyBlock_next_phase_witness :
  ∃ res,
    outcome (Block_ApplyBlock (stubBlock [56])
               [stubState true 0; stubState false 3; stubState true 1]
               [flagged 0; flagged 0; flagged 1]) = Ok res ∧
    length (OutStates res) = 3%nat ∧
    ∀ i x, [stubState true 0; stubState false 3; stubState true 1] !! i = Some x →
      ∃ v x', [flagged 0; flagged 0; flagged 1] !! i = Some v ∧
        OutStates res !! i = Some x' ∧
        (Reading x' = true ↔ Reading x = true ∧ terminatorIsZero v) ∧
        (Reading x' = false ↔ ¬ (Reading x = true ∧ terminatorIsZero v)) ∧
        (Reading x = true →
         (∃ t, v !! Z.to_nat Terminator = Some t ∧
               PrimFloat.eqb t 0%float = false) →
         Reading x' = false).
Proof.
  eexists. split; [vm_compute; reflexivity |].
  apply (ApplyBlock_next_phase (stubBlock [56])
           [stubState true 0; stubState false 3; stubState true 1]
           [flagged 0; flagged 0; flagged 1]).
  vm_compute. reflexivity.
Defined.

Lemma phase_monotonic_witness :
  ∃ x', [stubState false 1; stubState false 3] !! 1%nat = Some x' ∧
        Reading x' = false.
Proof.
  eassert (Hrun : run (stubBlock [56])
                    (replicate 2 (Block_StartState (stubBlock [56])))
                    [[flagged 0; flagged 1]; [flagged 0; flagged 0];
                     [flagged 1; flagged 0]; [flagged 0; flagged 0]] = Ok _)
    by (vm_compute; reflexivity).
  apply (phase_monotonic _ _ _ _ Hrun 1%nat 4%nat 1%nat
           [stubState true 0; stubState false 0] _ (stubState false 0));
    [lia | reflexivity..].
Defined.

Lemma empty_part_not_invoked_witness :
  calls (Block_ApplyBlock (stubBlock [56])
           [stubState false 0; stubState false 1] [flagged 0; flagged 1])
    = [CallApplyBlock WriterCell [0%nat; 1%nat] [flagged 0; flagged 1]] ∧
  ∀ k, k ∈ calls (Block_ApplyBlock (stubBlock [56])
                    [stubState false 0; stubState false 1]
                    [flagged 0; flagged 1]) →
       callee k = WriterCell.
Proof.
  split; [vm_compute; reflexivity |].
  apply (proj1 (proj1 (empty_part_not_invoked (stubBlock [56]))
                  [stubState false 0; stubState false 1]
                  [flagged 0; flagged 1] false
                  ltac:(repeat constructor))).
Defined.

Lemma all_reading_degeneracy_witness :
  ∃ res,
    outcome (Block_ApplyBlock (stubBlock [56])
               [stubState true 0; stubState true 1]
               [flagged 0; flagged 1]) = Ok res ∧
    ∃ rres,
      rnn_ApplyBlock (Reader (stubBlock [56]))
        (State <$> [stubState true 0; stubState true 1])
        [flagged 0; flagged 1] = Ok rres ∧
      blockResult_Outputs res = Outputs rres ∧
      calls (Block_ApplyBlock (stubBlock [56])
               [stubState true 0; stubState true 1] [flagged 0; flagged 1])
        = [CallApplyBlock ReaderCell
             (State <$> [stubState true 0; stubState true 1])
             [flagged 0; flagged 1]].
Proof.
  eexists. split; [vm_compute; reflexivity |].
  apply (proj1 (proj2 (all_reading_degeneracy (stubBlock [56])
                         [stubState true 0; stubState true 1]
                         [flagged 0; flagged 1]
                         ltac:(repeat constructor)))).
  - vm_compute. reflexivity.
  - discriminate.
Defined.

Lemma gradient_shape_witness :
  ∃ res,
    outcome (Block_ApplyBlock (stubBlock [56])
               [stubState true 0; stubState false 3; stubState true 1]
               [flagged 0; flagged 0; flagged 1]) = Ok res ∧
    blockResult_PropagateGradient res
      [flagged 1; flagged 1; flagged 1] [10; 20; 30]%nat 0%nat
      = Ok ([10; 20; 30]%nat, 3%nat) ∧
    length [10; 20; 30]%nat = 3%nat ∧
    ∃ readDown writeDown g1,
      PropagateGradient (ReadRes res)
        (pick true [true; false; true] [flagged 1; flagged 1; flagged 1])
        (pick true [true; false; true] [10; 20; 30]%nat) 0%nat
        = Ok (readDown, g1) ∧
      PropagateGradient (WriteRes res)
        (pick false [true; false; true] [flagged 1; flagged 1; flagged 1])
        (pick false [true; false; true] [10; 20; 30]%nat) g1
        = Ok (writeDown, 3%nat) ∧
      splitReadWrite [true; false; true] [10; 20; 30]%nat
        = Ok (readDown, writeDown) ∧
      ∀ i x,
        [stubState true 0; stubState false 3; stubState true 1] !! i = Some x →
        ∃ d, [10; 20; 30]%nat !! i = Some d ∧
             (if Reading x then readDown else writeDown)
               !! countFlag (Reading x) (take i [true; false; true]) = Some d.
Proof.
  eexists. split; [vm_compute; reflexivity |].
  split; [vm_compute; reflexivity |].
  apply (proj1 (gradient_shape (stubBlock [56])
                  [stubState true 0; stubState false 3; stubState true 1]
                  [flagged 0; flagged 0; flagged 1] _
                  [flagged 1; flagged 1; flagged 1] [10; 20; 30]%nat 0%nat
                  ltac:(vm_compute; reflexivity))
           [10; 20; 30]%nat 3%nat).
  vm_compute. reflexivity.
Defined.

Lemma Query_decodes_witness :
  ∃ r1 vT v0 r0 syms last,
    feedQuery {| Runner_Block := stubBlock [56; 57]; currentState := None |}
      [53; 43; 51] = Ok r1 ∧
    oneHotVector Terminator = Ok vT ∧
    Runner_StepTime r1 vT = Ok (v0, r0) ∧
    decoded (S (length syms)) r0 Terminator = Ok (syms ++ [last]) ∧
    Forall (λ c, c ≠ Terminator) syms ∧
    (last = Terminator ∨ length syms = Z.to_nat maxResponseLen) ∧
    [56; 57] = mjoin (string_of_rune <$> syms) ∧
    [56; 57] = syms ∧
    (length [56; 57] ≤ Z.to_nat maxResponseLen)%nat.
Proof.
  apply (Query_decodes (stubBlock [56; 57]) [53; 43; 51] [56; 57]).
  vm_compute. reflexivity.
Defined.

(** The cap at work: a writer that never emits the Terminator is cut off
    after 1000 symbols. *)
Example Query_cap :
  ∃ out, Block_Query (stubBlock (replicate 1500 65)) [53] = Ok out ∧
         length out = 1000%nat.
Proof. eexists. split; vm_compute; reflexivity. Qed.

End OnStubs.

(** * Further properties *)

(** ** The codec *)

Lemma maxFrom_app (l1 l2 : list float) (i : nat) (best : float) (bestIdx : nat) :
  maxFrom (l1 ++ l2) i best bestIdx =
    maxFrom l2 (i + length l1) (maxFrom l1 i best bestIdx).1
      (maxFrom l1 i best bestIdx).2.
Proof.
  revert i best bestIdx. induction l1 as [|x l1 IH]; intros i best bestIdx.
  - cbn. by rewrite Nat.add_0_r.
  - cbn [app maxFrom length]. rewrite <- Nat.add_succ_comm.
    destruct (PrimFloat.ltb best x); apply IH.
Qed.

Lemma maxFrom_zeros (n i : nat) (best : float) (bestIdx : nat) :
  PrimFloat.ltb best 0%float = false →
  maxFrom (replicate n 0%float) i best bestIdx = (best, bestIdx).
Proof.
  intros Hb. revert i. induction n as [|n IH]; intros i; [done |].
  cbn. rewrite Hb. apply IH.
Qed.

Lemma Vector_Max_oneHot (k n : nat) :
  (k < n)%nat →
  Vector_Max (<[k := 1%float]> (replicate n 0%float)) = (1%float, k).
Proof.
  intros Hk. rewrite insert_replicate_lt by done.
  destruct k as [|k].
  - cbn. by apply maxFrom_zeros.
  - cbn [replicate app Vector_Max]. rewrite maxFrom_app, length_replicate.
    rewrite maxFrom_zeros by done. cbn [fst snd maxFrom].
    replace (PrimFloat.ltb 0 1) with true by done.
    by rewrite maxFrom_zeros.
Qed.

Lemma rune_of_int_small (n : Z) : 0 ≤ n < 2 ^ 31 → rune_of_int n = n.
Proof.
  intros Hn. unfold rune_of_int.
  rewrite Z.mod_small by lia. lia.
Qed.

Lemma decode_oneHot_shared (x : rune) :
  inRange x → ∃ v, oneHotVector x = Ok v ∧ decodeSymbol v = x.
Proof.
  intros Hx. eexists. split; [by apply oneHotVector_in_range |].
  unfold decodeSymbol. rewrite Vector_Max_oneHot
    by (unfold inRange in Hx; lia).
  cbn [snd]. unfold inRange, CharCount in Hx. rewrite rune_of_int_small; lia.
Qed.

(** X1. Decoding undoes encoding: for a rune in [0, CharCount) the greatest
    component of its one-hot vector is the 1 at the rune's index, so the
    symbol [Query] reads off the vector is the rune itself. *)
Theorem decode_oneHotVector (x : rune) :
  inRange x →
  ∃ v, oneHotVector x = Ok v ∧
       Vector_Max v = (1%float, Z.to_nat x) ∧
       decodeSymbol v = x.
Proof.
  intros Hx. eexists. split; [by apply oneHotVector_in_range |].
  assert (Hmax : Vector_Max
            (<[Z.to_nat x := 1%float]> (replicate (Z.to_nat CharCount) 0%float))
            = (1%float, Z.to_nat x)).
  { apply Vector_Max_oneHot. unfold inRange in Hx. lia. }
  split; [done |]. unfold decodeSymbol. rewrite Hmax. cbn [snd].
  unfold inRange, CharCount in Hx. rewrite rune_of_int_small; lia.
Qed.

Lemma decode_oneHotVector_witness :
  ∃ v, oneHotVector 56 = Ok v ∧
       Vector_Max v = (1%float, Z.to_nat 56) ∧
       decodeSymbol v = 56.
Proof.
  apply (decode_oneHotVector 56). unfold inRange, CharCount. lia.
Defined.

Lemma oneHotVector_Terminator_component (x : rune) :
  inRange x →
  ∃ v, oneHotVector x = Ok v ∧
       v !! Z.to_nat Terminator =
         Some (if decide (x = Terminator) then 1%float else 0%float).
Proof.
  intros Hx. eexists. split; [by apply oneHotVector_in_range |].
  unfold inRange, CharCount, Terminator in *. case_decide as Hz.
  - subst x. done.
  - rewrite list_lookup_insert_ne by lia. apply lookup_replicate. split; [done | lia].
Qed.

Lemma oneHotVector_terminatorIsZero (x : rune) (v : Vector) :
  oneHotVector x = Ok v → (terminatorIsZero v ↔ x ≠ Terminator).
Proof.
  intros Hv.
  assert (Hx : inRange x).
  { destruct (decide (inRange x)) as [|Hx]; [done |].
    by rewrite oneHotVector_out_of_range in Hv. }
  destruct (oneHotVector_Terminator_component x Hx) as (v' & Hv' & Ht).
  replace v' with v in Ht by congruence.
  unfold terminatorIsZero. rewrite Ht.
  case_decide as Hz; split.
  - intros (t & [= <-] & Heq). discriminate.
  - done.
  - done.
  - intros _. by exists 0%float.
Qed.

(** X2. Among the encodings of the runes in [0, CharCount), only the
    Terminator's has a non-zero Terminator component: the one-hot vector of
    a rune signals the end of reading exactly when the rune is 0. *)
Theorem oneHotVector_signals_Terminator (x : rune) :
  inRange x →
  ∃ v, oneHotVector x = Ok v ∧ (terminatorIsZero v ↔ x ≠ Terminator).
Proof.
  intros Hx. eexists. split; [by apply oneHotVector_in_range |].
  apply (oneHotVector_terminatorIsZero x). by apply oneHotVector_in_range.
Qed.

Lemma oneHotVector_signals_Terminator_witness :
  ∃ v, oneHotVector 53 = Ok v ∧ (terminatorIsZero v ↔ 53 ≠ Terminator).
Proof.
  apply (oneHotVector_signals_Terminator 53). unfold inRange, CharCount. lia.
Defined.

(** ** The sample's sequences *)

Lemma encodeRunes_Ok_inv (str : list rune) (vs : list Vector) :
  encodeRunes str = Ok vs →
  Forall inRange str ∧ length vs = length str ∧
  ∀ i x, str !! i = Some x →
    ∃ v, oneHotVector x = Ok v ∧ vs !! i = Some v.
Proof.
  revert vs. induction str as [|y rest IH]; intros vs.
  - intros [= <-]. split_and!; [done.. |]. intros i x Hi. by destruct i.
  - cbn [encodeRunes].
    intros (v & Hv & (vs' & Hvs' & [= <-])%bind_Ok)%bind_Ok.
    destruct (IH _ Hvs') as (Hall & Hlen & Hrec). split_and!.
    + constructor; [|done]. destruct (decide (inRange y)) as [|Hy]; [done |].
      by rewrite oneHotVector_out_of_range in Hv.
    + cbn. by rewrite Hlen.
    + intros [|i] x Hi; [injection Hi as <-; by exists v | by apply Hrec].
Qed.

Lemma encodeRunes_first_reject (pre post : list rune) (x : rune) :
  Forall inRange pre → ¬ inRange x →
  encodeRunes (pre ++ x :: post) = Panic (RuneOutOfRange x).
Proof.
  intros Hpre Hx. induction Hpre as [|y pre Hy _ IH].
  - cbn. by rewrite oneHotVector_out_of_range.
  - cbn. rewrite (oneHotVector_in_range y Hy), result_bind_Ok. by rewrite IH.
Qed.

(** X3. Decoding the encoder input gives the query back: when
    [InputSequence] returns, reading the symbol off each of its vectors, in
    order, yields the runes of the query. *)
Theorem InputSequence_round_trip (s : Sample) (vs : list Vector) :
  Sample_InputSequence s = Ok vs →
  decodeSymbol <$> vs = Query s.
Proof.
  unfold Sample_InputSequence.
  intros (Hall & Hlen & Hrec)%encodeRunes_Ok_inv.
  apply list_eq_same_length with (length vs); [done | by rewrite length_fmap |].
  intros i d x Hi Hd Hx. rewrite list_lookup_fmap in Hd.
  destruct (Hrec i x Hx) as (v & Hv & Hvs). rewrite Hvs in Hd.
  injection Hd as <-.
  rewrite Forall_lookup in Hall.
  destruct (decode_oneHot_shared x (Hall i x Hx)) as (v' & Hv' & Hdec).
  congruence.
Qed.

Lemma InputSequence_round_trip_witness :
  ∃ vs,
    Sample_InputSequence {| Query := [53; 43; 51]; Response := [56] |} = Ok vs ∧
    decodeSymbol <$> vs = [53; 43; 51].
Proof.
  eexists. split; [vm_compute; reflexivity |].
  apply (InputSequence_round_trip {| Query := [53; 43; 51]; Response := [56] |}).
  vm_compute. reflexivity.
Defined.

(** X4. Teacher forcing: for a response of runes in [0, CharCount) the
    decoder's target is the encoded response followed by the Terminator's
    encoding, the decoder's input is the Terminator's encoding followed by
    the encoded response, both hold one vector more than the response has
    runes, and the input at step [i + 1] is the target at step [i]. *)
Theorem decoder_sequences_shift (s : Sample) :
  Forall inRange (Response s) →
  ∃ out inp t,
    oneHotVector Terminator = Ok t ∧
    Sample_DecoderOutSequence s = Ok out ∧
    Sample_DecoderInSequence s = Ok inp ∧
    length out = S (length (Response s)) ∧
    length inp = S (length (Response s)) ∧
    inp !! 0%nat = Some t ∧
    out !! length (Response s) = Some t ∧
    (∀ i x, Response s !! i = Some x →
       ∃ v, oneHotVector x = Ok v ∧ out !! i = Some v ∧ inp !! S i = Some v) ∧
    inp ++ [t] = t :: out.
Proof.
  intros Hall. destruct (encodeRunes_accepts _ Hall) as (enc & Henc & Hlen).
  assert (HT : inRange Terminator) by (unfold inRange, Terminator, CharCount; lia).
  pose proof (oneHotVector_in_range _ HT) as Ht.
  eexists (enc ++ [_]), (_ :: enc), _. split; [exact Ht |].
  unfold Sample_DecoderOutSequence, Sample_DecoderInSequence.
  change (oneHotVector 0) with (oneHotVector Terminator).
  rewrite Henc, Ht, !result_bind_Ok.
  split_and!; try done.
  - rewrite length_app, Hlen. cbn. lia.
  - cbn. by rewrite Hlen.
  - rewrite <- Hlen. by rewrite list_lookup_middle.
  - intros i x Hi.
    destruct (encodeRunes_Ok_inv _ _ Henc) as (_ & _ & Hrec).
    destruct (Hrec i x Hi) as (v & Hv & Hvs). exists v.
    split_and!; [done | | done]. by apply lookup_app_l_Some.
Qed.

Lemma decoder_sequences_shift_witness :
  ∃ out inp t,
    oneHotVector Terminator = Ok t ∧
    Sample_DecoderOutSequence {| Query := [53]; Response := [56; 57] |} = Ok out ∧
    Sample_DecoderInSequence {| Query := [53]; Response := [56; 57] |} = Ok inp ∧
    length out = 3%nat ∧
    length inp = 3%nat ∧
    inp !! 0%nat = Some t ∧
    out !! 2%nat = Some t ∧
    (∀ i x, [56; 57] !! i = Some x →
       ∃ v, oneHotVector x = Ok v ∧ out !! i = Some v ∧ inp !! S i = Some v) ∧
    inp ++ [t] = t :: out.
Proof.
  apply (decoder_sequences_shift {| Query := [53]; Response := [56; 57] |}).
  repeat constructor; unfold CharCount; lia.
Defined.

(** X5. A response with a rune outside [0, CharCount) makes both decoder
    sequences panic in the encoder, at the first such rune of the
    response. *)
Theorem decoder_sequences_reject (s : Sample) (pre post : list rune) (x : rune) :
  Response s = pre ++ x :: post →
  Forall inRange pre → ¬ inRange x →
  Sample_DecoderOutSequence s = Panic (RuneOutOfRange x) ∧
  Sample_DecoderInSequence s = Panic (RuneOutOfRange x).
Proof.
  intros Hresp Hpre Hx.
  pose proof (encodeRunes_first_reject pre post x Hpre Hx) as Henc.
  assert (HT : inRange 0) by (unfold inRange, CharCount; lia).
  unfold Sample_DecoderOutSequence, Sample_DecoderInSequence.
  rewrite Hresp, Henc, (oneHotVector_in_range _ HT). done.
Qed.

Lemma decoder_sequences_reject_witness :
  Sample_DecoderOutSequence {| Query := [53]; Response := [82; 233; 51] |}
    = Panic (RuneOutOfRange 233) ∧
  Sample_DecoderInSequence {| Query := [53]; Response := [82; 233; 51] |}
    = Panic (RuneOutOfRange 233).
Proof.
  apply (decoder_sequences_reject
           {| Query := [53]; Response := [82; 233; 51] |} [82] [51] 233).
  - reflexivity.
  - repeat constructor; unfold CharCount; lia.
  - unfold inRange, CharCount. lia.
Defined.

(** ** More on one step of the block *)

Section StepFacts.
Context `{Carrier}.
Implicit Types (b : Block) (s : list blockState) (ins : list Vector).

Lemma nextStates_inner s ins internalStates out :
  nextStates 0 s ins internalStates = Ok out →
  length internalStates = length s →
  State <$> out = internalStates.
Proof.
  intros [Hlen Hrec]%nextStates_Ok_inv Hist.
  apply list_eq_same_length with (length s);
    [done | by rewrite length_fmap |].
  intros i st st' Hi Hst Hst'. rewrite list_lookup_fmap in Hst.
  destruct (lookup_lt_is_Some_2 s i) as [x Hx]; [done |].
  destruct (Hrec i x Hx) as (x' & Hx' & Hint & _). cbn in Hint.
  rewrite Hx' in Hst. cbn in Hst. congruence.
Qed.

(** X6. The outputs and the next inner states of a step are in batch
    order: there is one of each per sequence, splitting them by the phase
    flags gives back what the reader and the writer returned, and the
    entry of sequence [i] is the one its own cell returned at the rank of
    [i] among the sequences of its phase. Each cell was given exactly the
    states and inputs of the sequences of its phase, in batch order. *)
Theorem ApplyBlock_outputs_routed b s ins res :
  outcome (Block_ApplyBlock b s ins) = Ok res →
  length (blockResult_Outputs res) = length s ∧
  length (blockResult_States res) = length s ∧
  splitReadWrite (Reading <$> s) (blockResult_Outputs res)
    = Ok (Outputs (ReadRes res), Outputs (WriteRes res)) ∧
  splitReadWrite (Reading <$> s) (State <$> blockResult_States res)
    = Ok (States (ReadRes res), States (WriteRes res)) ∧
  partResult b ReaderCell (pick true (Reading <$> s) (State <$> s))
    (pick true (Reading <$> s) ins) = Ok (ReadRes res) ∧
  partResult b WriterCell (pick false (Reading <$> s) (State <$> s))
    (pick false (Reading <$> s) ins) = Ok (WriteRes res) ∧
  ∀ i x, s !! i = Some x →
    ∃ o x',
      blockResult_Outputs res !! i = Some o ∧
      blockResult_States res !! i = Some x' ∧
      Outputs (if Reading x then ReadRes res else WriteRes res)
        !! countFlag (Reading x) (take i (Reading <$> s)) = Some o ∧
      States (if Reading x then ReadRes res else WriteRes res)
        !! countFlag (Reading x) (take i (Reading <$> s)) = Some (State x').
Proof.
  intros (Hlen & _ & Hread & Hwrite & Hout & ist & Hist & Hnext)%ApplyBlock_Ok_inv.
  unfold blockResult_Outputs, blockResult_States.
  apply joinReadWrite_Ok_inv in Hout as (HlenO & HrO & HwO).
  apply joinReadWrite_Ok_inv in Hist as (HlenI & HrI & HwI).
  rewrite length_fmap in HlenO, HlenI.
  pose proof (nextStates_inner _ _ _ _ Hnext HlenI) as Hinner.
  destruct (nextStates_Ok_inv _ _ _ _ _ Hnext) as [HlenS _].
  split_and!; [done | done | | | done | done |].
  - rewrite HrO, HwO. apply splitReadWrite_Ok. by rewrite length_fmap.
  - rewrite Hinner, HrI, HwI. apply splitReadWrite_Ok. by rewrite length_fmap.
  - intros i x Hi.
    destruct (lookup_lt_is_Some_2 (OutVecs res) i) as [o Ho].
    { rewrite HlenO. by apply (lookup_lt_Some s i x). }
    destruct (lookup_lt_is_Some_2 (OutStates res) i) as [x' Hx'].
    { rewrite HlenS. by apply (lookup_lt_Some s i x). }
    exists o, x'. split_and!; [done.. | |].
    + assert (Hf : (Reading <$> s) !! i = Some (Reading x))
        by (by rewrite list_lookup_fmap, Hi).
      pose proof (pick_lookup (Reading x) (Reading <$> s) (OutVecs res) i o)
        as Hpick.
      rewrite length_fmap in Hpick. specialize (Hpick (eq_sym HlenO) Hf Ho).
      destruct (Reading x); congruence.
    + assert (Hf : (Reading <$> s) !! i = Some (Reading x))
        by (by rewrite list_lookup_fmap, Hi).
      assert (Hst : ist !! i = Some (State x'))
        by (by rewrite <- Hinner, list_lookup_fmap, Hx').
      pose proof (pick_lookup (Reading x) (Reading <$> s) ist i (State x'))
        as Hpick.
      rewrite length_fmap in Hpick. specialize (Hpick (eq_sym HlenI) Hf Hst).
      destruct (Reading x); congruence.
Qed.

Lemma partResult_contract b c (states : list rnn_State) (part : list Vector) :
  (∀ c states part,
     part ≠ [] → length states = length part →
     ∃ r, rnn_ApplyBlock (cellOf b c) states part = Ok r ∧
          shapeOk (length part) r) →
  length states = length part →
  ∃ r, partResult b c states part = Ok r ∧ shapeOk (length part) r.
Proof.
  intros Hcell Hlen. unfold partResult.
  destruct part as [|v part].
  - exists emptyResult. by split.
  - cbn [length Nat.ltb Nat.leb]. by apply Hcell.
Qed.

(** X7. A step returns whenever it is given one input per state, every
    reading sequence's input has a Terminator component to test, and each
    cell returns one output and one state per sequence on every non-empty
    batch. *)
Theorem ApplyBlock_total b s ins :
  length ins = length s →
  (∀ k x v, s !! k = Some x → Reading x = true → ins !! k = Some v → v ≠ []) →
  (∀ c states part,
     part ≠ [] → length states = length part →
     ∃ r, rnn_ApplyBlock (cellOf b c) states part = Ok r ∧
          shapeOk (length part) r) →
  ∃ res, outcome (Block_ApplyBlock b s ins) = Ok res.
Proof.
  intros Hlen Hin Hcell.
  assert (Hpart : ∀ c (r : bool),
    ∃ res, partResult b c (pick r (Reading <$> s) (State <$> s))
             (pick r (Reading <$> s) ins) = Ok res ∧
           shapeOk (countFlag r (Reading <$> s)) res).
  { intros c r.
    destruct (partResult_contract b c (pick r (Reading <$> s) (State <$> s))
                (pick r (Reading <$> s) ins) Hcell) as (res & Hres & Hshape).
    - by rewrite !length_pick by (by rewrite ?length_fmap).
    - exists res. split; [done |].
      by rewrite length_pick in Hshape by (by rewrite length_fmap). }
  destruct (Hpart ReaderCell true) as (readRes & Hread & Hrs).
  destruct (Hpart WriterCell false) as (writeRes & Hwrite & Hws).
  destruct (ApplyBlock_returns b s ins readRes writeRes) as (res & Hres & _);
    [done.. |].
  by exists res.
Qed.

(** X8. On a batch whose sequences are all writing the reader is never
    called. A step that returns on a non-empty such batch made exactly one
    call, the writer's on the whole batch in batch order, and its outputs
    are the writer's outputs. *)
Theorem all_writing_degeneracy b s ins :
  Forall (λ x, Reading x = false) s →
  (∀ k, k ∈ calls (Block_ApplyBlock b s ins) → callee k ≠ ReaderCell) ∧
  (∀ res, outcome (Block_ApplyBlock b s ins) = Ok res → s ≠ [] →
     ∃ wres, rnn_ApplyBlock (Writer b) (State <$> s) ins = Ok wres ∧
             blockResult_Outputs res = Outputs wres ∧
             State <$> blockResult_States res = States wres ∧
             calls (Block_ApplyBlock b s ins) =
               [CallApplyBlock WriterCell (State <$> s) ins]).
Proof.
  intros Hs. split.
  - intros k Hk. by rewrite (ApplyBlock_calls_phase b s ins false k Hs Hk).
  - intros res Hres Hne.
    pose proof (ApplyBlock_empty_part _ _ _ _ _ Hs Hres) as Hempty.
    cbn in Hempty.
    pose proof Hres as (Hlen & _ & _ & Hwrite & Hout & ist & Hist & Hnext)%ApplyBlock_Ok_inv.
    destruct (pick_phase s ins false) as [HIall HInone]; [done.. |].
    destruct (pick_phase s (State <$> s) false) as [HSall HSnone];
      [by rewrite length_fmap | done |].
    cbn [negb] in *. rewrite HIall, HSall in Hwrite.
    assert (Hpos : (0 <? length ins)%nat = true).
    { apply Nat.ltb_lt. rewrite Hlen. destruct s; [done | cbn; lia]. }
    unfold partResult in Hwrite. rewrite Hpos in Hwrite. cbn in Hwrite.
    exists (WriteRes res). split_and!; [done | | |].
    + apply joinReadWrite_Ok_inv in Hout as (HlenO & _ & HO).
      rewrite length_fmap in HlenO.
      destruct (pick_phase s (OutVecs res) false) as [HOall _]; [done.. |].
      unfold blockResult_Outputs. congruence.
    + apply joinReadWrite_Ok_inv in Hist as (HlenI & _ & HI).
      rewrite length_fmap in HlenI.
      destruct (pick_phase s ist false) as [HIstall _]; [done.. |].
      unfold blockResult_States.
      rewrite (nextStates_inner _ _ _ _ Hnext HlenI). congruence.
    + rewrite ApplyBlock_calls. cbv zeta.
      rewrite (splitReadWrite_Ok _ (State <$> s)) by (by rewrite !length_fmap).
      rewrite (splitReadWrite_Ok _ ins) by (by rewrite length_fmap).
      rewrite HIall, HSall, HInone. unfold partResult, partCalls.
      rewrite Hpos. cbn [length Nat.ltb Nat.leb app]. done.
Qed.

End StepFacts.

(** ** The forward-mode step and its backward pass *)

Section ForwardMode.
Context `{Carrier}.
Implicit Types (b : Block) (rs : list blockRState) (rins : list autofunc_RResult).

Lemma nextRStates_Ok_inv i rs rins internalStates out :
  nextRStates i rs rins internalStates = Ok out →
  length out = length rs ∧
  ∀ k x, rs !! k = Some x →
    ∃ x', out !! k = Some x' ∧
          internalStates !! (i + k)%nat = Some (StateR x') ∧
          (ReadingR x' = true ↔
           ReadingR x = true ∧
           ∃ v, rins !! (i + k)%nat = Some v ∧ terminatorIsZero (Output v)).
Proof.
  revert i out. induction rs as [|y rs IH]; intros i out.
  - intros [= <-]. split; [done |]. intros k x Hk. by destruct k.
  - cbn [nextRStates].
    intros (rd & Hrd & (st & Hst%index_Ok & (rest & Hrest & [= <-])%bind_Ok)%bind_Ok)%bind_Ok.
    destruct (IH _ _ Hrest) as [Hlen Hrec]. split; [cbn; by rewrite Hlen |].
    intros [|k] x Hk.
    + injection Hk as ->. eexists. split; [done |]. cbn.
      rewrite Nat.add_0_r. split; [done |].
      destruct (ReadingR x) eqn:Hx.
      * apply bind_Ok in Hrd as (v & Hv%index_Ok & (t & Ht%index_Ok & [= <-])%bind_Ok).
        split.
        -- intros Heq. split; [done |]. exists v. split; [done |]. by exists t.
        -- intros [_ (v' & Hv' & t' & Ht' & Heq)]. congruence.
      * injection Hrd as <-. split; [done | intros [[=] _]].
    + destruct (Hrec k x Hk) as (x' & Hout & Hst' & Hiff).
      exists x'. by rewrite <- Nat.add_succ_comm.
Qed.

(** What a returned forward-mode step was made of. *)
Lemma ApplyBlockR_Ok_inv b rv rs rins res :
  outcome (Block_ApplyBlockR b rv rs rins) = Ok res →
  let reading := ReadingR <$> rs in
  length rins = length rs ∧
  resR_Reading res = reading ∧
  joinReadWrite reading (R_Outputs (ReadResR res)) (R_Outputs (WriteResR res))
    = Ok (OutVecsR res) ∧
  joinReadWrite reading (ROutputs (ReadResR res)) (ROutputs (WriteResR res))
    = Ok (ROutVecs res) ∧
  ∃ internalStates,
    joinReadWrite reading (RStates (ReadResR res)) (RStates (WriteResR res))
      = Ok internalStates ∧
    nextRStates 0 rs rins internalStates = Ok (OutStatesR res).
Proof.
  rewrite ApplyBlockR_outcome. cbv zeta.
  intros ([readS writeS] & HS & Hk)%bind_Ok.
  apply bind_Ok in Hk as ([readIn writeIn] & HI & Hk).
  apply bind_Ok in Hk as (readRes & Hread & Hk).
  apply bind_Ok in Hk as (writeRes & Hwrite & Hk).
  apply bind_Ok in Hk as (outVecs & Hout & Hk).
  apply bind_Ok in Hk as (rOutVecs & Hrout & Hk).
  apply bind_Ok in Hk as (internalStates & Hint & Hk).
  apply bind_Ok in Hk as (outStates & Hnext & [= <-]).
  apply splitReadWrite_Ok_inv in HI as (Hlen & _ & _).
  rewrite length_fmap in Hlen. cbn. split_and!; try done.
  by exists internalStates.
Qed.

Lemma ApplyBlockR_phases b rv rs rins res :
  outcome (Block_ApplyBlockR b rv rs rins) = Ok res →
  length (OutStatesR res) = length rs ∧
  ∀ i x, rs !! i = Some x →
    ∃ v x', rins !! i = Some v ∧ OutStatesR res !! i = Some x' ∧
      (ReadingR x' = true ↔ ReadingR x = true ∧ terminatorIsZero (Output v)).
Proof.
  intros (Hlen & _ & _ & _ & ist & _ & Hnext)%ApplyBlockR_Ok_inv.
  destruct (nextRStates_Ok_inv _ _ _ _ _ Hnext) as [Hout Hrec].
  split; [done |]. intros i x Hi.
  destruct (lookup_lt_is_Some_2 rins i) as [v Hv].
  { rewrite Hlen. by apply (lookup_lt_Some rs i x). }
  destruct (Hrec i x Hi) as (x' & Hx' & _ & Hiff). cbn in Hiff.
  exists v, x'. split_and!; [done.. |]. rewrite Hiff. split.
  - intros [Hx (v' & Hv' & Hz)]. by replace v with v' by congruence.
  - intros [Hx Hz]. eauto.
Qed.

(** X9. The forward-mode step follows the same phase rule: after an
    [ApplyBlockR] that returns, a sequence is reading if and only if it was
    reading and the Terminator component of its input's value (not of its
    derivative) is zero; one output, one output derivative and one state
    are returned per sequence. *)
Theorem ApplyBlockR_next_phase b rv rs rins res :
  outcome (Block_ApplyBlockR b rv rs rins) = Ok res →
  length (OutStatesR res) = length rs ∧
  length (OutVecsR res) = length rs ∧
  length (ROutVecs res) = length rs ∧
  ∀ i x, rs !! i = Some x →
    ∃ v x', rins !! i = Some v ∧ OutStatesR res !! i = Some x' ∧
      (ReadingR x' = true ↔ ReadingR x = true ∧ terminatorIsZero (Output v)).
Proof.
  intros Hres. destruct (ApplyBlockR_phases _ _ _ _ _ Hres) as [Hlen Hrec].
  apply ApplyBlockR_Ok_inv in Hres as (_ & _ & Hout & Hrout & _).
  apply joinReadWrite_Ok_inv in Hout as (HlenO & _).
  apply joinReadWrite_Ok_inv in Hrout as (HlenR & _).
  rewrite length_fmap in HlenO, HlenR. done.
Qed.

(** X10. Forward mode does not change the control flow: when a step and a
    forward-mode step on the same phase flags and the same input values
    both return, they leave every sequence in the same phase. *)
Theorem ApplyBlockR_same_phases b rv s ins rs rins res rres :
  Reading <$> s = ReadingR <$> rs →
  ins = Output <$> rins →
  outcome (Block_ApplyBlock b s ins) = Ok res →
  outcome (Block_ApplyBlockR b rv rs rins) = Ok rres →
  Reading <$> OutStates res = ReadingR <$> OutStatesR rres.
Proof.
  intros Hflags -> [Hlen Hrec]%ApplyBlock_phases [HlenR HrecR]%ApplyBlockR_phases.
  assert (Hss : length s = length rs).
  { by rewrite <- (length_fmap Reading s), Hflags, length_fmap. }
  apply list_eq_same_length with (length s);
    [by rewrite length_fmap, HlenR | by rewrite length_fmap |].
  intros i f f' Hi Hf Hf'.
  rewrite list_lookup_fmap in Hf. rewrite list_lookup_fmap in Hf'.
  destruct (lookup_lt_is_Some_2 s i) as [x Hx]; [done |].
  destruct (lookup_lt_is_Some_2 rs i) as [y Hy]; [lia |].
  destruct (Hrec i x Hx) as (v & x' & Hv & Hx' & Hiff).
  destruct (HrecR i y Hy) as (w & y' & Hw & Hy' & HiffR).
  rewrite Hx' in Hf. rewrite Hy' in Hf'. cbn in Hf, Hf'.
  injection Hf as <-. injection Hf' as <-.
  assert (Hxy : Reading x = ReadingR y).
  { apply (f_equal (.!! i)) in Hflags.
    rewrite !list_lookup_fmap, Hx, Hy in Hflags. by injection Hflags. }
  assert (Hvw : v = Output w).
  { rewrite list_lookup_fmap, Hw in Hv. by injection Hv. }
  rewrite Hxy, Hvw in Hiff.
  destruct (Reading x'), (ReadingR y'); try done.
  - by destruct (proj2 HiffR (proj1 Hiff eq_refl)).
  - by destruct (proj2 Hiff (proj1 HiffR eq_refl)).
Qed.

(** X11. The state gradients that [PropagateRGradient] returns for a
    forward-mode step are as many as the states the step was applied to
    and are in batch order: splitting them by the step's flags gives back
    the reader's and the writer's state gradients, and both cells'
    backward passes work on the same pair of gradients, the reader's
    first. *)
Theorem RGradient_shape b rv rs rins res u uR sg rg g down rg' g' :
  outcome (Block_ApplyBlockR b rv rs rins) = Ok res →
  blockRResult_PropagateRGradient res u uR sg rg g = Ok (down, (rg', g')) →
  length down = length rs ∧
  ∃ readDown writeDown rg1 g1,
    PropagateRGradient (ReadResR res) (pick true (ReadingR <$> rs) u)
      (pick true (ReadingR <$> rs) uR) (pick true (ReadingR <$> rs) sg) rg g
      = Ok (readDown, (rg1, g1)) ∧
    PropagateRGradient (WriteResR res) (pick false (ReadingR <$> rs) u)
      (pick false (ReadingR <$> rs) uR) (pick false (ReadingR <$> rs) sg) rg1 g1
      = Ok (writeDown, (rg', g')) ∧
    splitReadWrite (ReadingR <$> rs) down = Ok (readDown, writeDown).
Proof.
  intros (_ & Hreading & _)%ApplyBlockR_Ok_inv.
  unfold blockRResult_PropagateRGradient. rewrite Hreading. intros Hpg.
  apply bind_Ok in Hpg as ([readU writeU] & HU & Hpg).
  apply bind_Ok in Hpg as ([readUR writeUR] & HUR & Hpg).
  apply bind_Ok in Hpg as ([readS writeS] & HS & Hpg).
  apply bind_Ok in Hpg as ([readDown [rg1 g1]] & Hrd & Hpg).
  apply bind_Ok in Hpg as ([writeDown [rg2 g2]] & Hwd & Hpg).
  apply bind_Ok in Hpg as (down' & Hjoin & [= <- <- <-]).
  apply splitReadWrite_Ok_inv in HU as (_ & -> & ->).
  apply splitReadWrite_Ok_inv in HUR as (_ & -> & ->).
  apply splitReadWrite_Ok_inv in HS as (_ & -> & ->).
  apply joinReadWrite_Ok_inv in Hjoin as (HlenD & HrD & HwD).
  rewrite length_fmap in HlenD. split; [done |].
  exists readDown, writeDown, rg1, g1. split_and!; [done.. |].
  rewrite HrD, HwD. apply splitReadWrite_Ok. by rewrite length_fmap.
Qed.

End ForwardMode.

(** ** More on the query driver *)

Section RunnerFacts.
Context `{Carrier}.
Implicit Types (b : Block) (r : Runner) (q : list rune).

(** A step of the runner is a step of the block on the batch of its one
    sequence. *)
Lemma Runner_StepTime_Ok_inv r (input o : Vector) r' :
  Runner_StepTime r input = Ok (o, r') →
  ∃ res st,
    outcome (Block_ApplyBlock (Runner_Block r) [Runner_state r] [input]) = Ok res ∧
    OutStates res !! 0%nat = Some st ∧
    OutVecs res !! 0%nat = Some o ∧
    r' = {| Runner_Block := Runner_Block r; currentState := Some st |}.
Proof.
  unfold Runner_StepTime. cbv zeta.
  intros (res & Hres & (st & Hst%index_Ok & (v & Hv%index_Ok & [= <- <-])%bind_Ok)%bind_Ok)%bind_Ok.
  by exists res, st.
Qed.

Lemma Runner_StepTime_phase r (input o : Vector) r' :
  Runner_StepTime r input = Ok (o, r') →
  Runner_Block r' = Runner_Block r ∧
  (Reading (Runner_state r') = true ↔
   Reading (Runner_state r) = true ∧ terminatorIsZero input).
Proof.
  intros (res & st & Hres & Hst & _ & ->)%Runner_StepTime_Ok_inv.
  split; [done |]. cbn.
  destruct (ApplyBlock_phases _ _ _ _ Hres) as [_ Hrec].
  destruct (Hrec 0%nat (Runner_state r) eq_refl) as (v & x' & Hv & Hx' & Hiff).
  injection Hv as <-. by replace st with x' by congruence.
Qed.

Lemma feedQuery_cons r (x : rune) q :
  feedQuery r (x :: q) =
    if (x <? 0) || (x >? 128) then feedQuery r q
    else v ← oneHotVector x; '(_, r) ← Runner_StepTime r v; feedQuery r q.
Proof. done. Qed.

Lemma guard_passes (x : rune) :
  (x <? 0) || (x >? 128) = false ↔ passesGuard x.
Proof.
  unfold passesGuard. rewrite orb_false_iff, Z.ltb_ge, Z.gtb_ltb, Z.ltb_ge. lia.
Qed.

Lemma feedQuery_filter r q :
  feedQuery r q = feedQuery r (filter passesGuard q).
Proof.
  revert r. induction q as [|x q IH]; intros r; [done |].
  rewrite filter_cons, feedQuery_cons.
  destruct ((x <? 0) || (x >? 128)) eqn:Hg.
  - rewrite decide_False; [apply IH |].
    intros Hp%guard_passes. congruence.
  - rewrite decide_True by (by apply guard_passes).
    rewrite feedQuery_cons, Hg.
    destruct (oneHotVector x) as [v|]; [|done]. rewrite !result_bind_Ok.
    destruct (Runner_StepTime r v) as [[o r']|]; [|done].
    rewrite !result_bind_Ok. apply IH.
Qed.

(** X12. The runes that the guard of [Query] passes over leave no trace:
    a query gives the same outcome as the query without its runes below 0
    or above 128. *)
Theorem Query_skips_invisible b q :
  Block_Query b q = Block_Query b (filter passesGuard q).
Proof.
  unfold Block_Query. cbv zeta. by rewrite (feedQuery_filter _ q).
Qed.

(** X13. A string that [Query] returns holds only bytes from 1 to 127:
    never the Terminator and never a byte of a multi-byte rune. *)
Theorem Query_returns_ascii b q out :
  Block_Query b q = Ok out → Forall (λ c, 1 ≤ c < 128) out.
Proof.
  unfold Block_Query.
  intros (r1 & _ & (vT & _ & ([v0 r0] & _ & Hloop)%bind_Ok)%bind_Ok)%bind_Ok.
  destruct (decodeLoop_spec _ _ _ _ Hloop)
    as (syms & last & _ & Hall & _ & _ & Ho & _); [cbn; lia |].
  cbn [app] in Ho. subst out.
  eapply Forall_impl; [exact Hall |]. cbn.
  intros c [Hc Hr]. unfold Terminator, inRange, CharCount in *. lia.
Qed.

Lemma feedQuery_128 r q : 128 ∈ q → ∃ e, feedQuery r q = Panic e.
Proof.
  revert r. induction q as [|x q IH]; intros r Hin.
  - by apply elem_of_nil in Hin.
  - rewrite feedQuery_cons. apply elem_of_cons in Hin as [<-|Hin].
    + cbn. eauto.
    + destruct ((x <? 0) || (x >? 128)); [by apply IH |].
      destruct (oneHotVector x) as [v|e]; [|by exists e].
      rewrite result_bind_Ok.
      destruct (Runner_StepTime r v) as [[o r']|e]; [|by exists e].
      rewrite result_bind_Ok. by apply IH.
Qed.

(** X14. A query that holds the rune 128 anywhere never returns: it
    panics, in the encoder at that rune unless a step before it panicked
    first. *)
Theorem Query_128_never_returns b q :
  128 ∈ q → ∃ e, Block_Query b q = Panic e.
Proof.
  intros Hin. unfold Block_Query. cbv zeta.
  destruct (feedQuery_128 {| Runner_Block := b; currentState := None |} q Hin)
    as [e ->].
  by exists e.
Qed.

(** X15. While the query is fed the runner stays with the reader unless
    the query itself holds the rune 0: after the first loop of [Query] the
    runner is reading if and only if it was reading before and no rune of
    the query is the Terminator. *)
Theorem feedQuery_phase r q r' :
  feedQuery r q = Ok r' →
  Runner_Block r' = Runner_Block r ∧
  (Reading (Runner_state r') = true ↔
   Reading (Runner_state r) = true ∧ Terminator ∉ q).
Proof.
  revert r. induction q as [|x q IH]; intros r.
  - intros [= <-]. split; [done |]. split; [|by intros [? _]].
    intros Hr. split; [done |]. by intros ?%elem_of_nil.
  - rewrite feedQuery_cons. destruct ((x <? 0) || (x >? 128)) eqn:Hg.
    + intros [Hb Hiff]%IH. split; [done |]. rewrite Hiff, not_elem_of_cons.
      assert (Hx : Terminator ≠ x).
      { unfold Terminator. rewrite Z.gtb_ltb in Hg.
        apply orb_true_iff in Hg as [Hg%Z.ltb_lt|Hg%Z.ltb_lt]; lia. }
      tauto.
    + intros (v & Hv & ([o r1] & Hstep & Hrest)%bind_Ok)%bind_Ok.
      destruct (Runner_StepTime_phase _ _ _ _ Hstep) as [Hb1 Hiff1].
      destruct (IH _ Hrest) as [Hb Hiff]. split; [congruence |].
      rewrite Hiff, Hiff1, (oneHotVector_terminatorIsZero x v Hv).
      rewrite not_elem_of_cons. intuition congruence.
Qed.


Lemma inRange_passes (x : rune) :
  inRange x → (x <? 0) || (x >? 128) = false.
Proof.
  intros Hx. apply guard_passes. unfold passesGuard, inRange, CharCount in *. lia.
Qed.

(** X17. Inference reads what training reads: for a query of runes in
    [0, CharCount) the first loop of [Query] feeds the runner exactly the
    vectors of the sample's [InputSequence], in order. *)
Theorem feedQuery_InputSequence r (s : Sample) :
  Forall inRange (Query s) →
  ∃ vs, Sample_InputSequence s = Ok vs ∧
        feedQuery r (Query s) = stepAll r vs.
Proof.
  unfold Sample_InputSequence. generalize (Query s). clear s.
  intros q Hq. revert r. induction Hq as [|x q Hx _ IH]; intros r.
  - by exists [].
  - rewrite feedQuery_cons, (inRange_passes x Hx). cbn [encodeRunes].
    rewrite (oneHotVector_in_range x Hx), !result_bind_Ok.
    destruct (encodeRunes q) as [vs|e] eqn:Hvs.
    + eexists. split; [done |]. cbn [stepAll].
      destruct (Runner_StepTime r _) as [[o r']|]; [|done].
      rewrite !result_bind_Ok. destruct (IH r') as (vs' & [= <-] & ->). done.
    + destruct (IH r) as (vs' & [=] & _).
Qed.

Lemma decodeLoop_complete r (lastOut : rune) (res : list byte)
    (syms : list rune) (last : rune) :
  decoded (S (length syms)) r lastOut = Ok (syms ++ [last]) →
  Forall (λ c, c ≠ Terminator) syms →
  last = Terminator ∨ (length res + length syms)%nat = Z.to_nat maxResponseLen →
  (length res + length syms ≤ Z.to_nat maxResponseLen)%nat →
  decodeLoop r lastOut res = Ok (res ++ syms).
Proof.
  revert r lastOut res. induction syms as [|c syms IH]; intros r lastOut res.
  - cbn [length decoded app].
    intros ([sym r'] & Hstep & [= ->])%bind_Ok _ Hend _.
    rewrite decodeLoop_step, Hstep, result_bind_Ok, app_nil_r.
    replace ((last =? 0) || (Z.of_nat (length res) >=? maxResponseLen))
      with true; [done |].
    symmetry. apply orb_true_iff. unfold Terminator, maxResponseLen in *.
    destruct Hend as [->|Hend]; [by left | right]. lia.
  - cbn [length app]. change (decoded (S (S (length syms))) r lastOut)
      with ('(sym, r) ← decodeStep r lastOut;
            syms ← decoded (S (length syms)) r sym; Ok (sym :: syms)).
    intros ([sym r'] & Hstep & (rest & Hrest & [= -> ->])%bind_Ok)%bind_Ok.
    intros [Hc Hall]%Forall_cons Hend Hcap.
    assert (Hin : inRange c).
    { cbn [decoded] in Hrest.
      apply bind_Ok in Hrest as ([sym' r''] & Hstep' & _).
      by apply decodeStep_inRange in Hstep'. }
    rewrite decodeLoop_step, Hstep, result_bind_Ok.
    replace ((c =? 0) || (Z.of_nat (length res) >=? maxResponseLen))
      with false.
    + rewrite (string_of_rune_inRange c Hin), (IH r' c (res ++ [c])).
      * by rewrite <- app_assoc.
      * done.
      * done.
      * rewrite length_app. cbn. destruct Hend as [?|Hend]; [by left | right]. lia.
      * rewrite length_app. cbn. lia.
    + symmetry. apply orb_false_iff. unfold Terminator, maxResponseLen in *.
      split; lia.
Qed.

(** X18. The converse of the decoding theorem: once the query and the
    Terminator are fed, if the symbols decoded round after round are
    [syms] followed by the Terminator, with no Terminator among at most
    1000 [syms], or are 1000 symbols [syms] without Terminator followed by
    any symbol, then [Query] returns exactly [syms]. *)
Theorem Query_returns_decoded b q r1 vT v0 r0 (syms : list rune) (last : rune) :
  feedQuery {| Runner_Block := b; currentState := None |} q = Ok r1 →
  oneHotVector Terminator = Ok vT →
  Runner_StepTime r1 vT = Ok (v0, r0) →
  decoded (S (length syms)) r0 Terminator = Ok (syms ++ [last]) →
  Forall (λ c, c ≠ Terminator) syms →
  (length syms ≤ Z.to_nat maxResponseLen)%nat →
  last = Terminator ∨ length syms = Z.to_nat maxResponseLen →
  Block_Query b q = Ok syms.
Proof.
  intros Hfeed HvT Hstep Hdec Hall Hcap Hend. unfold Block_Query. cbv zeta.
  rewrite Hfeed, result_bind_Ok, HvT, result_bind_Ok, Hstep, result_bind_Ok.
  by apply (decodeLoop_complete r0 Terminator [] syms last).
Qed.

End RunnerFacts.

(** ** The further theorems on the stub block *)

Section MoreOnStubs.
#[local] Existing Instance stubCarrier.

Lemma ApplyBlock_outputs_routed_witness :
  ∃ res,
    outcome (Block_ApplyBlock (stubBlock [56])
               [stubState true 0; stubState false 0; stubState true 1]
               [flagged 0; flagged 0; flagged 1]) = Ok res ∧
    blockResult_Outputs res !! 1%nat = Some (spell [56] 0) ∧
    length (blockResult_Outputs res) = 3%nat ∧
    length (blockResult_States res) = 3%nat ∧
    splitReadWrite [true; false; true] (blockResult_Outputs res)
      = Ok (Outputs (ReadRes res), Outputs (WriteRes res)) ∧
    splitReadWrite [true; false; true] (State <$> blockResult_States res)
      = Ok (States (ReadRes res), States (WriteRes res)) ∧
    partResult (stubBlock [56]) ReaderCell
      (pick true [true; false; true] [0; 0; 1]%nat)
      (pick true [true; false; true] [flagged 0; flagged 0; flagged 1])
      = Ok (ReadRes res) ∧
    partResult (stubBlock [56]) WriterCell
      (pick false [true; false; true] [0; 0; 1]%nat)
      (pick false [true; false; true] [flagged 0; flagged 0; flagged 1])
      = Ok (WriteRes res) ∧
    ∀ i x,
      [stubState true 0; stubState false 0; stubState true 1] !! i = Some x →
      ∃ o x',
        blockResult_Outputs res !! i = Some o ∧
        blockResult_States res !! i = Some x' ∧
        Outputs (if Reading x then ReadRes res else WriteRes res)
          !! countFlag (Reading x) (take i [true; false; true]) = Some o ∧
        States (if Reading x then ReadRes res else WriteRes res)
          !! countFlag (Reading x) (take i [true; false; true]) = Some (State x').
Proof.
  eexists. split; [vm_compute; reflexivity |].
  split; [vm_compute; reflexivity |].
  apply (ApplyBlock_outputs_routed (stubBlock [56])
           [stubState true 0; stubState false 0; stubState true 1]
           [flagged 0; flagged 0; flagged 1]).
  vm_compute. reflexivity.
Defined.

Lemma ApplyBlock_total_witness :
  ∃ res,
    outcome (Block_ApplyBlock (stubBlock [56])
               [stubState true 0; stubState false 0]
               [flagged 0; flagged 1]) = Ok res.
Proof.
  apply (ApplyBlock_total (stubBlock [56])
           [stubState true 0; stubState false 0] [flagged 0; flagged 1]).
  - reflexivity.
  - intros [|[|k]] x v Hx _ Hv; try discriminate; by injection Hv as <-.
  - intros c states part _ Hlen.
    destruct c; eexists; (split; [reflexivity |]);
      split; cbn; by rewrite ?length_fmap.
Defined.

Lemma all_writing_degeneracy_witness :
  ∃ res,
    outcome (Block_ApplyBlock (stubBlock [56; 57])
               [stubState false 0; stubState false 1]
               [flagged 0; flagged 1]) = Ok res ∧
    ∃ wres,
      rnn_ApplyBlock (Writer (stubBlock [56; 57]))
        (State <$> [stubState false 0; stubState false 1])
        [flagged 0; flagged 1] = Ok wres ∧
      blockResult_Outputs res = Outputs wres ∧
      State <$> blockResult_States res = States wres ∧
      calls (Block_ApplyBlock (stubBlock [56; 57])
               [stubState false 0; stubState false 1] [flagged 0; flagged 1])
        = [CallApplyBlock WriterCell
             (State <$> [stubState false 0; stubState false 1])
             [flagged 0; flagged 1]].
Proof.
  eexists. split; [vm_compute; reflexivity |].
  apply (proj2 (all_writing_degeneracy (stubBlock [56; 57])
                  [stubState false 0; stubState false 1]
                  [flagged 0; flagged 1]
                  ltac:(repeat constructor))).
  - vm_compute. reflexivity.
  - discriminate.
Defined.

Lemma ApplyBlockR_next_phase_witness :
  ∃ res,
    outcome (Block_ApplyBlockR (stubBlock [56]) tt
               [stubRState true 0; stubRState false 3; stubRState true 1]
               [flaggedR 0; flaggedR 0; flaggedR 1]) = Ok res ∧
    ReadingR <$> OutStatesR res = [true; false; false] ∧
    length (OutStatesR res) = 3%nat ∧
    length (OutVecsR res) = 3%nat ∧
    length (ROutVecs res) = 3%nat ∧
    ∀ i x,
      [stubRState true 0; stubRState false 3; stubRState true 1] !! i = Some x →
      ∃ v x',
        [flaggedR 0; flaggedR 0; flaggedR 1] !! i = Some v ∧
        OutStatesR res !! i = Some x' ∧
        (ReadingR x' = true ↔ ReadingR x = true ∧ terminatorIsZero (Output v)).
Proof.
  eexists. split; [vm_compute; reflexivity |].
  split; [vm_compute; reflexivity |].
  apply (ApplyBlockR_next_phase (stubBlock [56]) tt
           [stubRState true 0; stubRState false 3; stubRState true 1]
           [flaggedR 0; flaggedR 0; flaggedR 1]).
  vm_compute. reflexivity.
Defined.

Lemma ApplyBlockR_same_phases_witness :
  ∃ res rres,
    outcome (Block_ApplyBlock (stubBlock [56])
               [stubState true 0; stubState false 3; stubState true 1]
               [flagged 0; flagged 0; flagged 1]) = Ok res ∧
    outcome (Block_ApplyBlockR (stubBlock [56]) tt
               [stubRState true 7; stubRState false 8; stubRState true 9]
               [flaggedR 0; flaggedR 0; flaggedR 1]) = Ok rres ∧
    Reading <$> OutStates res = ReadingR <$> OutStatesR rres.
Proof.
  eexists. eexists. split; [vm_compute; reflexivity |].
  split; [vm_compute; reflexivity |].
  apply (ApplyBlockR_same_phases (stubBlock [56]) tt
           [stubState true 0; stubState false 3; stubState true 1]
           [flagged 0; flagged 0; flagged 1]
           [stubRState true 7; stubRState false 8; stubRState true 9]
           [flaggedR 0; flaggedR 0; flaggedR 1]);
    vm_compute; reflexivity.
Defined.

Lemma RGradient_shape_witness :
  ∃ res,
    outcome (Block_ApplyBlockR (stubBlock [56]) tt
               [stubRState true 0; stubRState false 3; stubRState true 1]
               [flaggedR 0; flaggedR 0; flaggedR 1]) = Ok res ∧
    blockRResult_PropagateRGradient res
      [flagged 1; flagged 1; flagged 1] [flagged 1; flagged 1; flagged 1]
      [10; 20; 30]%nat 5%nat 0%nat = Ok ([10; 20; 30]%nat, (5%nat, 3%nat)) ∧
    length [10; 20; 30]%nat = 3%nat ∧
    ∃ readDown writeDown rg1 g1,
      PropagateRGradient (ReadResR res)
        (pick true [true; false; true] [flagged 1; flagged 1; flagged 1])
        (pick true [true; false; true] [flagged 1; flagged 1; flagged 1])
        (pick true [true; false; true] [10; 20; 30]%nat) 5%nat 0%nat
        = Ok (readDown, (rg1, g1)) ∧
      PropagateRGradient (WriteResR res)
        (pick false [true; false; true] [flagged 1; flagged 1; flagged 1])
        (pick false [true; false; true] [flagged 1; flagged 1; flagged 1])
        (pick false [true; false; true] [10; 20; 30]%nat) rg1 g1
        = Ok (writeDown, (5%nat, 3%nat)) ∧
      splitReadWrite [true; false; true] [10; 20; 30]%nat
        = Ok (readDown, writeDown).
Proof.
  eexists. split; [vm_compute; reflexivity |].
  split; [vm_compute; reflexivity |].
  apply (RGradient_shape (stubBlock [56]) tt
           [stubRState true 0; stubRState false 3; stubRState true 1]
           [flaggedR 0; flaggedR 0; flaggedR 1] _
           [flagged 1; flagged 1; flagged 1] [flagged 1; flagged 1; flagged 1]
           [10; 20; 30]%nat 5%nat 0%nat [10; 20; 30]%nat 5%nat 3%nat);
    vm_compute; reflexivity.
Defined.

Lemma Query_returns_ascii_witness :
  Forall (λ c, 1 ≤ c < 128) [56; 57].
Proof.
  apply (Query_returns_ascii (stubBlock [56; 57]) [53; 43; 51] [56; 57]).
  vm_compute. reflexivity.
Defined.

Lemma Query_128_never_returns_witness :
  ∃ e, Block_Query (stubBlock [56; 57]) [53; 128; 51] = Panic e.
Proof.
  apply (Query_128_never_returns (stubBlock [56; 57]) [53; 128; 51]).
  right. left.
Defined.

Lemma feedQuery_phase_witness :
  ∃ r',
    feedQuery {| Runner_Block := stubBlock [56]; currentState := None |}
      [53; 0; 51] = Ok r' ∧
    Reading (Runner_state r') = false ∧
    Runner_Block r' = stubBlock [56] ∧
    (Reading (Runner_state r') = true ↔
     Reading (Runner_state
                {| Runner_Block := stubBlock [56]; currentState := None |}) = true ∧
     Terminator ∉ [53; 0; 51]).
Proof.
  eexists. split; [vm_compute; reflexivity |].
  split; [vm_compute; reflexivity |].
  apply (feedQuery_phase
           {| Runner_Block := stubBlock [56]; currentState := None |}
           [53; 0; 51]).
  vm_compute. reflexivity.
Defined.

Lemma feedQuery_InputSequence_witness :
  ∃ vs,
    Sample_InputSequence {| Query := [53; 43; 51]; Response := [56] |} = Ok vs ∧
    feedQuery {| Runner_Block := stubBlock [56]; currentState := None |}
      [53; 43; 51]
      = stepAll {| Runner_Block := stubBlock [56]; currentState := None |} vs.
Proof.
  apply (feedQuery_InputSequence
           {| Runner_Block := stubBlock [56]; currentState := None |}
           {| Query := [53; 43; 51]; Response := [56] |}).
  repeat constructor; unfold CharCount; lia.
Defined.

Lemma Query_returns_decoded_witness :
  Block_Query (stubBlock [56; 57]) [53; 43; 51] = Ok [56; 57].
Proof.
  eapply (Query_returns_decoded (stubBlock [56; 57]) [53; 43; 51]
            _ _ _ _ [56; 57] 0).
  - vm_compute. reflexivity.
  - vm_compute. reflexivity.
  - vm_compute. reflexivity.
  - vm_compute. reflexivity.
  - repeat constructor; discriminate.
  - vm_compute. lia.
  - by left.
Defined.


End MoreOnStubs.
